(** * save-rendered.js: crawl-and-rewrite engine

    A shallow embedding of [src/save-rendered.js] (the Puppeteer site
    mirroring script) and the properties of its path mapper, reference
    rewriter, asset pipeline and crawl frontier.

    JavaScript strings are modelled as lists of characters ([list ascii]);
    only the characters the script inspects ([/], [.], [$], [?], quotes,
    line terminators) are ever distinguished.  The Node [path] module is
    modelled for POSIX hosts ([path.sep = "/"]).  The WHATWG [URL] class,
    [decodeURIComponent], [fetch], the file system's failure behaviour and
    the browser are capabilities of the environment: they are parameters
    of the development, and a small reference instance is supplied to run
    the definitions on concrete inputs. *)

From Stdlib Require Import Ascii String.
From stdpp Require Import base list gmap sets strings.

(** ** JavaScript strings *)

Module JsString.

Abbreviation str := (list ascii).

Definition lit (s : string) : str := list_ascii_of_string s.

Definition str_eqb (a b : str) : bool := bool_decide (a = b).

(** [String.prototype.startsWith(p)] *)
Fixpoint startsWith (s p : str) {struct p} : bool :=
  match p, s with
  | [], _ => true
  | _ :: _, [] => false
  | c :: p', d :: s' => bool_decide (c = d) && startsWith s' p'
  end.

(** [String.prototype.endsWith(p)] *)
Definition endsWith (s p : str) : bool := startsWith (reverse s) (reverse p).

(** [String.prototype.includes(p)]: [p] occurs in [s] as a substring. *)
Fixpoint includes (s p : str) : bool :=
  startsWith s p ||
  match s with
  | [] => false
  | _ :: s' => includes s' p
  end.

(** [Array.prototype.join(sep)] on an array of strings. *)
Fixpoint join (sep : str) (l : list str) : str :=
  match l with
  | [] => []
  | [x] => x
  | x :: l' => x ++ sep ++ join sep l'
  end.

(** [String.prototype.split(sep)] for a string separator.  [cur] is the
    piece being collected (reversed); [skip] counts the characters of a
    separator occurrence that are still to be consumed.  An empty separator
    splits between every two characters. *)
Fixpoint split_go (sep : str) (cur : str) (skip : nat) (s : str) : list str :=
  match s with
  | [] => [reverse cur]
  | c :: s' =>
      match skip with
      | S k => split_go sep cur k s'
      | O =>
          if startsWith s sep
          then reverse cur :: split_go sep [] (Nat.pred (length sep)) s'
          else split_go sep (c :: cur) 0 s'
      end
  end.

Definition split (s sep : str) : list str :=
  match sep, s with
  | [], [] => []
  | [], _ => (fun c => [c]) <$> s
  | _, _ => split_go sep [] 0 s
  end.

(** [RegExp.prototype[Symbol.replace]] expands the replacement string at
    every match ([GetSubstitution]).  The patterns the script builds have
    no capture groups, so only [$$], [$&], [$`] and [$'] are active; [$]
    followed by anything else stands for itself. *)
Fixpoint expand (rel matched before after : str) : str :=
  match rel with
  | [] => []
  | c :: rel' =>
      if bool_decide (c = "$"%char) then
        match rel' with
        | d :: rel'' =>
            if bool_decide (d = "$"%char) then "$"%char :: expand rel'' matched before after
            else if bool_decide (d = "&"%char) then matched ++ expand rel'' matched before after
            else if bool_decide (d = "`"%char) then before ++ expand rel'' matched before after
            else if bool_decide (d = "'"%char) then after ++ expand rel'' matched before after
            else c :: expand rel' matched before after
        | [] => [c]
        end
      else c :: expand rel' matched before after
  end.

(** [s.replace(new RegExp(escaped, "g"), rel)] where [escaped] is the
    literal [pat] with its regex metacharacters escaped, so that the regex
    matches exactly the occurrences of [pat]: the matches are the leftmost
    non-overlapping occurrences, scanned from left to right.  [before]
    holds the part of the subject already scanned (reversed), [skip] the
    characters of the current match still to be consumed.  An empty
    pattern matches at every position, including the end. *)
Fixpoint replace_go (pat rel : str) (before : str) (skip : nat) (s : str) : str :=
  match s with
  | [] =>
      match skip, pat with
      | O, [] => expand rel [] (reverse before) []
      | _, _ => []
      end
  | c :: s' =>
      match skip with
      | S k => replace_go pat rel (c :: before) k s'
      | O =>
          if startsWith s pat
          then expand rel pat (reverse before) (drop (length pat) s)
               ++ match pat with
                  | [] => c :: replace_go pat rel (c :: before) 0 s'
                  | _ :: pat' => replace_go pat rel (c :: before) (length pat') s'
                  end
          else c :: replace_go pat rel (c :: before) 0 s'
      end
  end.

Definition replace_all (s pat rel : str) : str := replace_go pat rel [] 0 s.

(** The longest prefix of characters satisfying [f], and what follows it. *)
Fixpoint take_while (f : ascii → bool) (s : str) : str :=
  match s with
  | c :: s' => if f c then c :: take_while f s' else []
  | [] => []
  end.

Fixpoint drop_while (f : ascii → bool) (s : str) : str :=
  match s with
  | c :: s' => if f c then drop_while f s' else s
  | [] => []
  end.

(** A string is truthy when it is not empty. *)
Definition truthy (s : str) : bool :=
  match s with [] => false | _ => true end.

(** [Buffer.from(s).toString("hex")]: the UTF-8 bytes of [s], each as two
    lower-case hexadecimal digits. *)
Definition hex_digit (n : N) : ascii :=
  match n with
  | 0 => "0" | 1 => "1" | 2 => "2" | 3 => "3" | 4 => "4" | 5 => "5"
  | 6 => "6" | 7 => "7" | 8 => "8" | 9 => "9" | 10 => "a" | 11 => "b"
  | 12 => "c" | 13 => "d" | 14 => "e" | _ => "f"
  end%N%char.

Definition hex_byte (n : N) : str := [hex_digit (n / 16); hex_digit (n mod 16)]%N.

Definition utf8 (c : ascii) : list N :=
  let n := N_of_ascii c in
  if (n <? 128)%N then [n] else [192 + n / 64; 128 + n mod 64]%N.

Definition hex (s : str) : str := s ≫= (λ c, utf8 c ≫= hex_byte).

End JsString.

(** ** The Node [path] module on a POSIX host *)

Module Path.
Import JsString.

Definition slash : ascii := "/"%char.
Definition dot : ascii := "."%char.

(** [path.sep] *)
Definition sep : str := [slash].

Definition is_slash (c : ascii) : bool := bool_decide (c = slash).

(** The last component of [p], trailing slashes ignored (reversed). *)
Definition last_component_rev (p : str) : str :=
  take_while (λ c, negb (is_slash c)) (drop_while is_slash (reverse p)).

(** [path.extname(p)]: from the last [.] of the last component to its end;
    empty when that component has no [.], starts with its only [.], or is
    [..]. *)
Definition extname (p : str) : str :=
  let rb := last_component_rev p in
  let ext_rev := take_while (λ c, negb (bool_decide (c = dot))) rb in
  match drop (length ext_rev) rb with
  | [] => []
  | [_] => []
  | _ :: _ :: _ =>
      if bool_decide (rb = [dot; dot]) then [] else reverse (ext_rev ++ [dot])
  end.

(** [path.dirname(p)] *)
Definition dirname (p : str) : str :=
  match p with
  | [] => [dot]
  | c0 :: body =>
      let rb := drop_while (λ c, negb (is_slash c)) (drop_while is_slash (reverse body)) in
      match rb with
      | [] => if is_slash c0 then [slash] else [dot]
      | _ :: rest =>
          match rest with
          | [] => if is_slash c0 then [slash; slash] else [c0]
          | _ => c0 :: reverse rest
          end
      end
  end.

(** [normalizeString]: resolves [.] and [..] segments; [..] above the
    start is kept only when [allowAboveRoot]. *)
Definition dotdot : str := [dot; dot].

Definition norm_step (allowAboveRoot : bool) (res : list str) (seg : str) : list str :=
  if bool_decide (seg = []) || bool_decide (seg = [dot]) then res
  else if bool_decide (seg = dotdot) then
    match reverse res with
    | lastseg :: before =>
        if bool_decide (lastseg = dotdot)
        then (if allowAboveRoot then res ++ [dotdot] else res)
        else reverse before
    | [] => if allowAboveRoot then [dotdot] else []
    end
  else res ++ [seg].

Definition normalizeString (p : str) (allowAboveRoot : bool) : list str :=
  foldl (norm_step allowAboveRoot) [] (split p sep).

Definition isAbsolute (p : str) : bool := startsWith p sep.

(** [path.normalize(p)] *)
Definition normalize (p : str) : str :=
  match p with
  | [] => [dot]
  | _ =>
      let isAbs := isAbsolute p in
      let trailing := endsWith p sep in
      let path := join sep (normalizeString p (negb isAbs)) in
      match path with
      | [] => if isAbs then sep else if trailing then dot :: sep else [dot]
      | _ =>
          let path := if trailing then path ++ sep else path in
          if isAbs then sep ++ path else path
      end
  end.

(** [path.join(a, b)] *)
Definition join2 (a b : str) : str :=
  match a, b with
  | [], [] => [dot]
  | [], _ => normalize b
  | _, [] => normalize a
  | _, _ => normalize (a ++ sep ++ b)
  end.

(** [path.resolve(p)] for a single argument, with [cwd] the absolute
    current working directory. *)
Definition resolve_segs (cwd p : str) : list str :=
  let full := match p with
              | [] => cwd
              | _ => if isAbsolute p then p else cwd ++ sep ++ p
              end in
  normalizeString full false.

Definition of_segs (segs : list str) : str := sep ++ join sep segs.

Definition resolve (cwd p : str) : str := of_segs (resolve_segs cwd p).

(** The segments left once the longest common prefix is removed. *)
Fixpoint strip_common (a b : list str) : list str * list str :=
  match a, b with
  | x :: a', y :: b' => if bool_decide (x = y) then strip_common a' b' else (a, b)
  | _, _ => (a, b)
  end.

(** [path.relative(from, to)] *)
Definition relative (cwd from to : str) : str :=
  if bool_decide (from = to) then []
  else
    let '(up, down) := strip_common (resolve_segs cwd from) (resolve_segs cwd to) in
    join sep (((λ _, dotdot) <$> up) ++ down).

End Path.

(** ** The environment: URL class, host capabilities, configuration *)

Import JsString.

(** The part of the WHATWG [URL] class the script uses.  [URL_new s] is
    [new URL(s)] and [URL_new_base s base] is [new URL(s, base)]; [None]
    stands for the [TypeError] thrown on an invalid URL. *)
Class UrlApi := {
  URL : Type;
  URL_new : str → option URL;
  URL_new_base : str → str → option URL;
  hostname : URL → str;
  pathname : URL → str;
  search : URL → str;
  set_hash : URL → str → URL;
  set_pathname : URL → str → URL;
  toString : URL → str;
}.

(** What [fetchImpl(url, {redirect: "follow"})] followed by
    [res.arrayBuffer()] comes to: a rejected promise, a response whose
    [ok] is false, or a body. *)
Inductive fetch_result :=
  | FetchRejects
  | FetchNotOk
  | FetchOk (body : str).

(** The file system as the script sees it: file contents by path, and the
    directories [mkdirSync] has made or found. *)
Record FS := {
  files : gmap str str;
  dirs : gset str;
}.

(** What the browser yields for a page; [None] stands for a rejected
    promise (navigation error, timeout, evaluation failure). *)
Record Rendered := {
  goto : option unit;
  content : option str;
  evaluate_assets : option (list str);
  eval_anchors : option (list str);
}.

(** The host: [decodeURIComponent] ([None] for [URIError]), [fetchImpl]
    (its answer may depend on the requests made so far, most recent
    first), the failures of [mkdirSync] and [writeFileSync], the working
    directory, and the browser. *)
Class Host := {
  decodeURIComponent : str → option str;
  fetchImpl : list str → str → fetch_result;
  mkdir_throws : FS → str → bool;
  write_throws : FS → str → bool;
  cwd : str;
  browse : str → Rendered;
}.

(** The constants at the head of the script.  [OUTPUT_DIR] is
    [path.resolve(__dirname, "rendered-site")]. *)
Class Config := {
  START_URL : str;
  PATH_PREFIX : str;
  OUTPUT_DIR : str;
  MAX_PAGES : nat;
}.

(** ** The script *)

Coercion lit : string >-> list.
Local Open Scope string_scope.
Local Open Scope list_scope.
Local Open Scope nat_scope.

(** Process-wide state of one run: the file system, the requests made
    with [fetchImpl] (most recent first), the frontier queue, the two
    sets, and the [urlToLocal] object of the page being processed (a
    JavaScript object whose keys are URLs: entries stay in insertion
    order). *)
Record State := {
  fs : FS;
  fetched : list str;
  toVisit : list str;
  visited : gset str;
  assetsDownloaded : gset str;
  urlToLocal : list (str * str);
}.

Definition set_fs (f : FS → FS) (s : State) : State :=
  {| fs := f (fs s); fetched := fetched s; toVisit := toVisit s;
     visited := visited s; assetsDownloaded := assetsDownloaded s;
     urlToLocal := urlToLocal s |}.

Definition set_fetched (f : list str → list str) (s : State) : State :=
  {| fs := fs s; fetched := f (fetched s); toVisit := toVisit s;
     visited := visited s; assetsDownloaded := assetsDownloaded s;
     urlToLocal := urlToLocal s |}.

Definition set_toVisit (f : list str → list str) (s : State) : State :=
  {| fs := fs s; fetched := fetched s; toVisit := f (toVisit s);
     visited := visited s; assetsDownloaded := assetsDownloaded s;
     urlToLocal := urlToLocal s |}.

Definition set_visited (f : gset str → gset str) (s : State) : State :=
  {| fs := fs s; fetched := fetched s; toVisit := toVisit s;
     visited := f (visited s); assetsDownloaded := assetsDownloaded s;
     urlToLocal := urlToLocal s |}.

Definition set_assetsDownloaded (f : gset str → gset str) (s : State) : State :=
  {| fs := fs s; fetched := fetched s; toVisit := toVisit s;
     visited := visited s; assetsDownloaded := f (assetsDownloaded s);
     urlToLocal := urlToLocal s |}.

Definition set_urlToLocal (f : list (str * str) → list (str * str)) (s : State) : State :=
  {| fs := fs s; fetched := fetched s; toVisit := toVisit s;
     visited := visited s; assetsDownloaded := assetsDownloaded s;
     urlToLocal := f (urlToLocal s) |}.

(** Statements either complete normally with a value or throw; the state
    reached is kept in both cases. *)
Inductive completion (A : Type) :=
  | Normal (a : A)
  | Thrown.
Arguments Normal {A} a.
Arguments Thrown {A}.

Definition M (A : Type) : Type := State → completion A * State.

#[global] Instance M_ret : MRet M := λ A a s, (Normal a, s).

#[global] Instance M_bind : MBind M := λ A B f m s,
  match m s with
  | (Normal a, s') => f a s'
  | (Thrown, s') => (Thrown, s')
  end.

Definition throw {A} : M A := λ s, (Thrown, s).

(** [try { body } catch { handler }] *)
Definition try_catch {A} (body handler : M A) : M A := λ s,
  match body s with
  | (Normal a, s') => (Normal a, s')
  | (Thrown, s') => handler s'
  end.

Definition gets {A} (f : State → A) : M A := λ s, (Normal (f s), s).

Definition modify (f : State → State) : M unit := λ s, (Normal tt, f s).

Definition lift_opt {A} (o : option A) : M A :=
  match o with
  | Some a => mret a
  | None => throw
  end.

(** [for (const x of l) body(x)] *)
Fixpoint for_each {A} (l : list A) (body : A → M unit) : M unit :=
  match l with
  | [] => mret tt
  | x :: l' => body x;; for_each l' body
  end.

Definition truthy_list {A} (l : list A) : bool :=
  match l with [] => false | _ => true end.

(** *** Objects used as maps *)

(** [o[k] = v]: an existing key keeps its place. *)
Fixpoint obj_set (o : list (str * str)) (k v : str) : list (str * str) :=
  match o with
  | [] => [(k, v)]
  | (k', v') :: o' =>
      if bool_decide (k' = k) then (k, v) :: o' else (k', v') :: obj_set o' k v
  end.

(** [o[k]]; [None] is [undefined]. *)
Fixpoint obj_get (o : list (str * str)) (k : str) : option str :=
  match o with
  | [] => None
  | (k', v') :: o' => if bool_decide (k' = k) then Some v' else obj_get o' k
  end.

(** [Object.keys(o)] *)
Definition obj_keys (o : list (str * str)) : list str := fst <$> o.

(** *** Regular expressions of the script *)

Definition double_quote : ascii := "034"%char.

(** Line terminators, which [.] does not match. *)
Definition is_line_terminator (c : ascii) : bool :=
  bool_decide (c = "010"%char) || bool_decide (c = "013"%char).

(** The shortest run of non-terminator characters after which [close]
    follows: the lazy [(.*?)] in front of [close]. *)
Fixpoint lazy_until (close : str) (s : str) : option str :=
  if startsWith s close then Some []
  else match s with
       | [] => None
       | c :: s' =>
           if is_line_terminator c then None
           else (c ::.) <$> lazy_until close s'
       end.

(** One match of the regex for [url(...)] references, anchored at the
    start of [s]: [url(], an optional single or double quote (group 1), a
    lazy run of characters (group 2), group 1 again, [)].  The result is
    the whole match [m[0]] and the reference [m[2]].  The quote is tried
    first; without a matching closing quote the regex backtracks to the
    empty alternative. *)
Definition match_url_at (s : str) : option (str * str) :=
  if startsWith s "url(" then
    let r := drop 4 s in
    let unquoted := (λ ref : str, ("url(" ++ ref ++ ")", ref)) <$> lazy_until ")" r in
    match r with
    | q :: r' =>
        if bool_decide (q = "'"%char) || bool_decide (q = double_quote) then
          match lazy_until [q; ")"%char] r' with
          | Some ref => Some ("url(" ++ [q] ++ ref ++ [q] ++ ")", ref)
          | None => unquoted
          end
        else unquoted
    | [] => unquoted
    end
  else None.

(** [Array.from(text.matchAll(re))] for that regex with the [g] flag: the
    matches from left to right, none overlapping the one before. *)
Fixpoint matchAll_url_go (skip : nat) (s : str) : list (str * str) :=
  match s with
  | [] => []
  | _ :: s' =>
      match skip with
      | S k => matchAll_url_go k s'
      | O =>
          match match_url_at s with
          | Some m => m :: matchAll_url_go (Nat.pred (length m.1)) s'
          | None => matchAll_url_go 0 s'
          end
      end
  end.

Definition matchAll_url (s : str) : list (str * str) := matchAll_url_go 0 s.

Definition lower (c : ascii) : ascii :=
  let n := N_of_ascii c in
  if ((65 <=? n) && (n <=? 90))%N then ascii_of_N (n + 32) else c.

(** [u.match(/\.css($|\?)/i)] as a truth value. *)
Fixpoint is_css_url (u : str) : bool :=
  (bool_decide (lower <$> take 4 u = lit ".css") &&
   match drop 4 u with
   | [] => true
   | c :: _ => bool_decide (c = "?"%char)
   end)
  || match u with
     | [] => false
     | _ :: u' => is_css_url u'
     end.

(** [p.replace(/\/+$/, "/")] *)
Definition collapse_trailing_slashes (p : str) : str :=
  if endsWith p "/" then reverse (drop_while Path.is_slash (reverse p)) ++ "/" else p.

Section Script.
Context `{UrlApi} `{Host} `{Config}.

(** [const START_HOSTNAME = new URL(START_URL).hostname]; the script stops
    at load when [START_URL] is invalid. *)
Definition START_HOSTNAME : option str := hostname <$> URL_new START_URL.

(** *** File system and network *)

Definition exists_in (f : FS) (p : str) : bool :=
  bool_decide (is_Some (files f !! p)) || bool_decide (p ∈ dirs f).

Definition existsSync (p : str) : M bool := gets (λ s, exists_in (fs s) p).

(** A directory and the directories above it. *)
Fixpoint ancestors (fuel : nat) (d : str) : list str :=
  d :: match fuel with
       | O => []
       | S fuel' =>
           let d' := Path.dirname d in
           if bool_decide (d' = d) then [] else ancestors fuel' d'
       end.

(** [fs.mkdirSync(d, { recursive: true })] *)
Definition mkdirSync (d : str) : M unit := λ s,
  if mkdir_throws (fs s) d then (Thrown, s)
  else (Normal tt,
        set_fs (λ f, {| files := files f;
                        dirs := dirs f ∪ list_to_set (ancestors (length d) d) |}) s).

Definition ensureDir (filePath : str) : M unit :=
  mkdirSync (Path.dirname filePath).

(** [fs.writeFileSync(p, data)] *)
Definition writeFileSync (p data : str) : M unit := λ s,
  if write_throws (fs s) p then (Thrown, s)
  else (Normal tt, set_fs (λ f, {| files := <[p := data]> (files f); dirs := dirs f |}) s).

(** [fs.readFileSync(p, "utf8")] *)
Definition readFileSync (p : str) : M str := λ s,
  match files (fs s) !! p with
  | Some data => (Normal data, s)
  | None => (Thrown, s)
  end.

(** [await fetchImpl(url, ...)] and [await res.arrayBuffer()]: the request
    is recorded; [None] is a response that is not [ok]. *)
Definition fetch (url : str) : M (option str) := λ s,
  let s' := set_fetched (λ l, url :: l) s in
  match fetchImpl (fetched s) url with
  | FetchRejects => (Thrown, s')
  | FetchNotOk => (Normal None, s')
  | FetchOk body => (Normal (Some body), s')
  end.

(** *** Path mapper *)

Definition urlToLocalPath (url : str) : option str :=
  match URL_new url with
  | None => None
  | Some u =>
      match decodeURIComponent (pathname u) with
      | None => None
      | Some p =>
          let p := if endsWith p "/" then p ++ "index" else p in
          let p := if startsWith p "/" then drop 1 p else p in
          let ext := Path.extname p in
          let p := if negb (truthy ext) && truthy (search u)
                   then p ++ "_" ++ hex (search u) else p in
          Some (Path.join2 OUTPUT_DIR p)
      end
  end.

Definition makeRelativeForHtml (htmlFilePath assetLocalPath : str) : str :=
  let rel := Path.relative cwd (Path.dirname htmlFilePath) assetLocalPath in
  join "/" (split rel Path.sep).

(** *** Asset pipeline *)

Definition downloadAndSave (url assetLocalPath : str) : M bool :=
  if negb (truthy url) || negb (truthy assetLocalPath) then mret false
  else
    try_catch
      (if startsWith url "data:" then mret false
       else
         there ← existsSync assetLocalPath;
         if there : bool then mret true
         else
           res ← fetch url;
           match res with
           | None => mret false
           | Some buffer =>
               ensureDir assetLocalPath;;
               writeFileSync assetLocalPath buffer;;
               mret true
           end)
      (mret false).

(** The body of the loop over the assets of a page. *)
Definition download_asset (assetUrl : str) : M unit :=
  try_catch
    (_ ← lift_opt (URL_new assetUrl);
     match urlToLocalPath assetUrl with
     | None => mret tt
     | Some localPath =>
         already ← gets (λ s, bool_decide (assetUrl ∈ assetsDownloaded s));
         ok ← (if already : bool then mret true
               else downloadAndSave assetUrl localPath);
         if ok : bool then
           modify (set_assetsDownloaded (λ d, d ∪ {[assetUrl]}));;
           modify (set_urlToLocal (λ o, obj_set o assetUrl localPath))
         else mret tt
     end)
    (mret tt).

(** *** Reference rewriter *)

(** The output path of the page [nurl]. *)
Definition htmlFilePath_of (nurl : str) : M str :=
  u ← lift_opt (URL_new nurl);
  let p := pathname u in
  let p := if endsWith p "/" then p ++ "index.html" else p in
  let p := if str_eqb p "/" then lit "/index.html" else p in
  d ← lift_opt (decodeURIComponent (drop 1 p));
  mret (Path.join2 OUTPUT_DIR d).

(** One round of the loop over [Object.entries(urlToLocal)]; [None] when
    [new URL(origUrl)] throws. *)
Definition rewrite_entry (htmlFilePath html : str) (entry : str * str) : option str :=
  let rel := makeRelativeForHtml htmlFilePath entry.2 in
  let html := replace_all html entry.1 rel in
  match URL_new entry.1 with
  | None => None
  | Some u =>
      let originLess := "//" ++ hostname u ++ pathname u ++ search u in
      Some (replace_all html originLess rel)
  end.

Fixpoint rewriteHtml (htmlFilePath : str) (entries : list (str * str)) (html : str)
  : option str :=
  match entries with
  | [] => Some html
  | e :: entries' =>
      match rewrite_entry htmlFilePath html e with
      | None => None
      | Some html' => rewriteHtml htmlFilePath entries' html'
      end
  end.

(** *** Stylesheets *)

Definition relForCss (cssLocal localFull : str) : str :=
  join "/" (split (Path.relative cwd (Path.dirname cssLocal) localFull) Path.sep).

(** [cssText.split(m0).join(...)], the replacement being [rel] between
    [url(] with a double quote and a double quote with [)]. *)
Definition css_replace (cssText m0 rel : str) : str :=
  join ("url(" ++ [double_quote] ++ rel ++ [double_quote] ++ ")") (split cssText m0).

(** The body of the loop over the [url(...)] matches of one stylesheet;
    the value is the new [cssText]. *)
Definition css_ref (cssUrl cssLocal cssText : str) (m : str * str) : M str :=
  let ref := m.2 in
  if negb (truthy ref) then mret cssText
  else
    try_catch
      (u ← lift_opt (URL_new_base ref cssUrl);
       let abs := toString u in
       has ← gets (λ s, bool_decide (abs ∈ assetsDownloaded s));
       if has : bool then
         known ← gets (λ s, obj_get (urlToLocal s) abs);
         localFull ← lift_opt known;
         mret (css_replace cssText m.1 (relForCss cssLocal localFull))
       else
         match urlToLocalPath abs with
         | None => mret cssText
         | Some localFull =>
             ok ← downloadAndSave abs localFull;
             if ok : bool then
               modify (set_assetsDownloaded (λ d, d ∪ {[abs]}));;
               modify (set_urlToLocal (λ o, obj_set o abs localFull));;
               mret (css_replace cssText m.1 (relForCss cssLocal localFull))
             else mret cssText
         end)
      (mret cssText).

Fixpoint css_refs (cssUrl cssLocal cssText : str) (matches : list (str * str)) : M str :=
  match matches with
  | [] => mret cssText
  | m :: matches' =>
      cssText' ← css_ref cssUrl cssLocal cssText m;
      css_refs cssUrl cssLocal cssText' matches'
  end.

(** The body of the loop over [cssUrls]. *)
Definition scan_css (cssUrl : str) : M unit :=
  known ← gets (λ s, obj_get (urlToLocal s) cssUrl);
  try_catch
    (cssLocal ← lift_opt known;
     cssText ← readFileSync cssLocal;
     cssText' ← css_refs cssUrl cssLocal cssText (matchAll_url cssText);
     writeFileSync cssLocal cssText')
    (mret tt).

(** *** Crawl frontier *)

Definition normalize (url : str) : option str :=
  match URL_new_base url START_URL with
  | None => None
  | Some u =>
      let u := set_hash u [] in
      let u := if endsWith (pathname u) "/" && negb (str_eqb (pathname u) "/")
               then set_pathname u (collapse_trailing_slashes (pathname u))
               else u in
      Some (toString u)
  end.

(** The body of the loop over the anchors of the page [nurl]. *)
Definition enqueue_anchor (nurl a : str) : M unit :=
  try_catch
    (u ← lift_opt (URL_new_base a nurl);
     let abs := toString u in
     absObj ← lift_opt (URL_new abs);
     if bool_decide (START_HOSTNAME = Some (hostname absObj))
        && startsWith (pathname absObj) PATH_PREFIX
     then
       match normalize abs with
       | None => mret tt
       | Some norm =>
           fresh ← gets (λ s, truthy norm
                              && negb (bool_decide (norm ∈ visited s))
                              && negb (bool_decide (norm ∈ toVisit s)));
           if fresh : bool then modify (set_toVisit (λ q, q ++ [norm])) else mret tt
       end
     else mret tt)
    (mret tt).

(** *** Page processor *)

(** The [try] block of the main loop. *)
Definition visit_page (nurl : str) : M unit :=
  let page := browse nurl in
  lift_opt (goto page);;
  html ← lift_opt (content page);
  assets ← lift_opt (evaluate_assets page);
  modify (set_urlToLocal (λ _, []));;
  for_each assets download_asset;;
  htmlFilePath ← htmlFilePath_of nurl;
  entries ← gets urlToLocal;
  html' ← lift_opt (rewriteHtml htmlFilePath entries html);
  ensureDir htmlFilePath;;
  writeFileSync htmlFilePath html';;
  cssUrls ← gets (λ s, filter (λ u, is_css_url u) (obj_keys (urlToLocal s)));
  for_each cssUrls scan_css;;
  modify (set_visited (λ v, v ∪ {[nurl]}));;
  anchors ← lift_opt (eval_anchors page);
  for_each anchors (enqueue_anchor nurl).

(** One round of the main [while] loop. *)
Definition loop_body : M unit := λ s,
  match toVisit s with
  | [] => (Normal tt, s)
  | url :: rest =>
      let s := set_toVisit (λ _, rest) s in
      match normalize url with
      | None => (Normal tt, s)
      | Some nurl =>
          if negb (truthy nurl) || bool_decide (nurl ∈ visited s) then (Normal tt, s)
          else try_catch (visit_page nurl)
                         (modify (set_visited (λ v, v ∪ {[nurl]}))) s
      end
  end.

(** [toVisit.length && visited.size < MAX_PAGES] *)
Definition loop_cond (s : State) : bool :=
  truthy_list (toVisit s) && bool_decide (size (visited s) < MAX_PAGES).

(** The main loop, for at most [fuel] rounds. *)
Fixpoint crawl (fuel : nat) (s : State) : option State :=
  if loop_cond s then
    match fuel with
    | O => None
    | S fuel' => crawl fuel' (loop_body s).2
    end
  else Some s.

(** The state after [n] rounds of the loop (fewer when it stops before). *)
Fixpoint rounds (n : nat) (s : State) : State :=
  match n with
  | O => s
  | S n' => if loop_cond s then rounds n' (loop_body s).2 else s
  end.

(** The state when the loop is entered: the output directory is made
    when it is missing, the queue holds the start URL, the sets are empty.
    [None] when the script stops before the loop ([START_URL] invalid, or
    [mkdirSync] throws). *)
Definition startup (fs0 : FS) : option State :=
  let s0 := {| fs := fs0; fetched := []; toVisit := [START_URL];
               visited := ∅; assetsDownloaded := ∅; urlToLocal := [] |} in
  match START_HOSTNAME with
  | None => None
  | Some _ =>
      if exists_in fs0 OUTPUT_DIR then Some s0
      else match mkdirSync OUTPUT_DIR s0 with
           | (Normal _, s) => Some s
           | (Thrown, _) => None
           end
  end.

End Script.

(** ** A reference instance of the environment

    Used to run the script on concrete inputs.  [RefUrl] covers URLs of the
    forms [scheme://host/path?query#fragment] (lower-case scheme and host,
    no user information, no port, no character that the URL parser would
    percent-encode or decode) and [scheme:opaque-path]; on these it gives
    the components the WHATWG parser gives.  Anything else is reported as
    invalid. *)

Module RefUrl.

Record t := {
  scheme : str;
  host : option str;
  path : str;
  query : option str;
  fragment : option str;
}.

Definition in_range (lo hi : N) (c : ascii) : bool :=
  ((lo <=? N_of_ascii c) && (N_of_ascii c <=? hi))%N.

Definition is_lower (c : ascii) : bool := in_range 97 122 c.
Definition is_upper (c : ascii) : bool := in_range 65 90 c.
Definition is_digit (c : ascii) : bool := in_range 48 57 c.

Definition one_of (set : str) (c : ascii) : bool := bool_decide (c ∈ set).

(** Characters that every part of the parser leaves as they are. *)
Definition is_plain (c : ascii) : bool :=
  is_lower c || is_upper c || is_digit c || one_of "-._~!$&()*+,;=:@/" c.

Definition is_host_char (c : ascii) : bool :=
  is_lower c || is_digit c || bool_decide (c = "."%char).

(** Hosts: non-empty labels of lower-case letters and digits, the last
    one starting with a letter (so that it is not read as a number). *)
Definition valid_host (h : str) : bool :=
  forallb is_host_char h &&
  forallb truthy (split h ".") &&
  match last (split h ".") with
  | Some (c :: _) => is_lower c
  | _ => false
  end.

Definition is_special (sch : str) : bool :=
  bool_decide (sch ∈ [lit "http"; lit "https"; lit "ftp"; lit "ws"; lit "wss"; lit "file"]).

(** Removal of [.] and [..] segments from a path that starts with [/];
    empty segments are kept. *)
Definition dots_step (res : list str) (seg : str) : list str :=
  if bool_decide (seg = lit ".") then res
  else if bool_decide (seg = lit "..") then reverse (drop 1 (reverse res))
  else res ++ [seg].

Definition remove_dots (p : str) : str :=
  let segs := drop 1 (split p "/") in
  let res := foldl dots_step [] segs in
  let res := match last segs with
             | Some seg =>
                 if bool_decide (seg = lit ".") || bool_decide (seg = lit "..")
                 then res ++ [[]] else res
             | None => res
             end in
  "/" ++ join "/" res.

(** Splits [s] at the first character satisfying [f]. *)
Definition break (f : ascii → bool) (s : str) : str * str :=
  (take_while (λ c, negb (f c)) s, drop_while (λ c, negb (f c)) s).

(** Query and fragment of what follows the path. *)
Definition parse_tail (s : str) : option str * option str :=
  let '(q, f) := break (λ c, bool_decide (c = "#"%char)) s in
  (match q with
   | c :: q' => if bool_decide (c = "?"%char) then Some q' else None
   | [] => None
   end,
   match f with
   | _ :: f' => Some f'
   | [] => None
   end).

Definition is_delim (c : ascii) : bool := one_of "?#" c.

(** The scheme of an absolute URL and what follows the colon. *)
Definition split_scheme (s : str) : option (str * str) :=
  let '(sch, rest) := break (λ c, negb (is_lower c || is_digit c || one_of "+-." c)) s in
  match sch, rest with
  | c :: _, d :: rest' =>
      if is_lower c && bool_decide (d = ":"%char) then Some (sch, rest') else None
  | _, _ => None
  end.

Definition parse_absolute (s : str) : option t :=
  if forallb (λ c, is_plain c || is_delim c) s then
    match split_scheme s with
    | None => None
    | Some (sch, rest) =>
        if bool_decide (sch = lit "file") then None
        else if startsWith rest "//" then
          let '(h, rest1) := break (λ c, bool_decide (c = "/"%char) || is_delim c) (drop 2 rest) in
          let '(p, rest2) := break is_delim rest1 in
          let '(q, f) := parse_tail rest2 in
          if valid_host h then
            Some {| scheme := sch; host := Some h;
                    path := match p with
                            | [] => if is_special sch then lit "/" else []
                            | _ => remove_dots p
                            end;
                    query := q; fragment := f |}
          else None
        else if is_special sch then None
        else
          let '(p, rest2) := break is_delim rest in
          let '(q, f) := parse_tail rest2 in
          if startsWith p "/" then None
          else Some {| scheme := sch; host := None; path := p; query := q; fragment := f |}
    end
  else None.

(** The directory part of a path: up to and including its last [/]. *)
Definition dir_of (p : str) : str :=
  reverse (drop_while (λ c, negb (bool_decide (c = "/"%char))) (reverse p)).

Definition parse_relative (s : str) (b : t) : option t :=
  if forallb (λ c, is_plain c || is_delim c) s then
    let '(p, rest) := break is_delim s in
    let '(q, f) := parse_tail rest in
    match host b with
    | None =>
        match p, q with
        | [], None =>
            match f with
            | Some _ => Some {| scheme := scheme b; host := None; path := path b;
                                query := query b; fragment := f |}
            | None => None
            end
        | _, _ => None
        end
    | Some h =>
        if startsWith p "//" then
          let '(h', p') := break (λ c, bool_decide (c = "/"%char)) (drop 2 p) in
          if valid_host h' then
            Some {| scheme := scheme b; host := Some h';
                    path := remove_dots (match p' with [] => lit "/" | _ => p' end);
                    query := q; fragment := f |}
          else None
        else if startsWith p "/" then
          Some {| scheme := scheme b; host := Some h; path := remove_dots p;
                  query := q; fragment := f |}
        else
          match p with
          | [] =>
              Some {| scheme := scheme b; host := Some h; path := path b;
                      query := match q with Some _ => q | None => query b end;
                      fragment := f |}
          | _ =>
              Some {| scheme := scheme b; host := Some h;
                      path := remove_dots (dir_of (path b) ++ p);
                      query := q; fragment := f |}
          end
    end
  else None.

Definition parse (s : str) : option t := parse_absolute s.

Definition parse_base (s base : str) : option t :=
  match parse_absolute base with
  | None => None
  | Some b =>
      match parse_absolute s with
      | Some u => Some u
      | None =>
          match split_scheme s with
          | Some _ => None
          | None => parse_relative s b
          end
      end
  end.

Definition get_hostname (u : t) : str := default [] (host u).

Definition get_search (u : t) : str :=
  match query u with
  | Some (c :: q) => "?" ++ c :: q
  | _ => []
  end.

Definition href (u : t) : str :=
  scheme u ++ ":" ++
  match host u with Some h => "//" ++ h | None => [] end ++
  path u ++
  match query u with Some q => "?" ++ q | None => [] end ++
  match fragment u with Some f => "#" ++ f | None => [] end.

Definition with_hash (u : t) (v : str) : t :=
  {| scheme := scheme u; host := host u; path := path u; query := query u;
     fragment := match v with
                 | [] => None
                 | c :: v' => Some (if bool_decide (c = "#"%char) then v' else v)
                 end |}.

Definition with_pathname (u : t) (v : str) : t :=
  match host u with
  | None => u
  | Some _ =>
      {| scheme := scheme u; host := host u;
         path := remove_dots (if startsWith v "/" then v else "/" ++ v);
         query := query u; fragment := fragment u |}
  end.

Definition api : UrlApi := {|
  URL := t;
  URL_new := parse;
  URL_new_base := parse_base;
  hostname := get_hostname;
  pathname := path;
  search := get_search;
  set_hash := with_hash;
  set_pathname := with_pathname;
  toString := href;
|}.

End RefUrl.

(** A host whose network and browser answer from tables, whose file
    system never fails, and whose [decodeURIComponent] covers the strings
    without escapes (the only ones [RefUrl] lets through). *)
Module RefHost.

Definition decode (s : str) : option str :=
  if bool_decide ("%"%char ∈ s) then None else Some s.

Fixpoint lookup_table {A} (t : list (str * A)) (k : str) : option A :=
  match t with
  | [] => None
  | (k', v) :: t' => if bool_decide (k' = k) then Some v else lookup_table t' k
  end.

(** The site answers [200] with the body listed for a URL, and [404] for
    any other URL. *)
Definition serve (net : list (str * str)) (log : list str) (url : str) : fetch_result :=
  match lookup_table net url with
  | Some body => FetchOk body
  | None => FetchNotOk
  end.

Definition no_page : Rendered :=
  {| goto := None; content := None; evaluate_assets := None; eval_anchors := None |}.

Definition page (html : str) (assets anchors : list str) : Rendered :=
  {| goto := Some tt; content := Some html;
     evaluate_assets := Some assets; eval_anchors := Some anchors |}.

Definition make (net : list (str * str)) (pages : str → Rendered) : Host :=
  {| decodeURIComponent := decode;
     fetchImpl := serve net;
     mkdir_throws := λ _ _, false;
     write_throws := λ _ _, false;
     cwd := lit "/";
     browse := pages |}.

Definition pages_of (t : list (str * Rendered)) (nurl : str) : Rendered :=
  default no_page (lookup_table t nurl).

Definition empty_fs : FS := {| files := ∅; dirs := ∅ |}.

End RefHost.

(** ** Auxiliary notions used in the statements and proofs *)

Module Aux.
Import JsString.

(** Adds a character in front of the first piece. *)
Definition cons_head (c : ascii) (l : list str) : list str :=
  match l with
  | h :: t => (c :: h) :: t
  | [] => [[c]]
  end.

(** Reads back one character from the front of a [hex] string. *)
Definition unhex_digit (c : ascii) : option N :=
  let n := N_of_ascii c in
  if ((48 <=? n) && (n <=? 57))%N then Some (n - 48)%N
  else if ((97 <=? n) && (n <=? 102))%N then Some (n - 87)%N
  else None.

Definition unhex_byte (s : str) : option (N * str) :=
  match s with
  | a :: b :: s' =>
      match unhex_digit a, unhex_digit b with
      | Some x, Some y => Some (16 * x + y, s')%N
      | _, _ => None
      end
  | _ => None
  end.

Definition unhex_char (s : str) : option (ascii * str) :=
  match unhex_byte s with
  | Some (n, s') =>
      if (n <? 128)%N then Some (ascii_of_N n, s')
      else match unhex_byte s' with
           | Some (m, s'') => Some (ascii_of_N (64 * (n - 192) + (m - 128)), s'')
           | None => None
           end
  | None => None
  end.

(** What [path.normalize] makes of the resolved segments. *)
Definition render (isAbs trailing : bool) (segs : list str) : str :=
  match join Path.sep segs with
  | [] => if isAbs then Path.sep else if trailing then Path.dot :: Path.sep else [Path.dot]
  | path =>
      let path := if trailing then path ++ Path.sep else path in
      if isAbs then Path.sep ++ path else path
  end.

(** A list of segments followed by a separator, when there is any. *)
Definition join_prefix (segs : list str) : str :=
  match segs with
  | [] => []
  | _ => join Path.sep segs ++ Path.sep
  end.

(** Weakest precondition of a statement: [post] holds of value and state
    when it completes normally, [exc] of the state when it throws. *)
Definition wp {A} (m : M A) (post : A → State → Prop) (exc : State → Prop)
    (s : State) : Prop :=
  match m s with
  | (Normal a, s') => post a s'
  | (Thrown, s') => exc s'
  end.

(** The property holds after the statement however it completes. *)
Definition always_after {A} (m : M A) (P : State → Prop) (s : State) : Prop :=
  wp m (λ _, P) P s.

(** The statement keeps the property, however it completes. *)
Definition keeps {A} (P : State → Prop) (m : M A) : Prop :=
  ∀ s, P s → always_after m P s.

(** No [data:] URL has been requested, marked as downloaded or entered
    in [urlToLocal]. *)
Definition no_data (s : State) : Prop :=
  ∀ u, startsWith u "data:" = true →
    (u ∉ fetched s) ∧ (u ∉ assetsDownloaded s) ∧ obj_get (urlToLocal s) u = None.

(** Properties of the state that the asset pipeline cannot break: they
    survive any change of the file system, a request for a URL that is
    not a [data:] URL, the recording of such a URL (or of one already
    marked as downloaded), and a fresh [urlToLocal]. *)
Record asset_invariant (P : State → Prop) : Prop := {
  inv_fs : ∀ s f, P s → P (set_fs f s);
  inv_fetched : ∀ s u,
    startsWith u "data:" = false → P s → P (set_fetched (λ l, u :: l) s);
  inv_record : ∀ s u l,
    u ∈ assetsDownloaded s ∨ startsWith u "data:" = false → P s →
    P (set_urlToLocal (λ o, obj_set o u l) (set_assetsDownloaded (λ d, d ∪ {[u]}) s));
  inv_fresh : ∀ s, P s → P (set_urlToLocal (λ _, []) s);
}.

(** An ordinary path segment: not empty, not [.] or [..], no separator. *)
Definition ordinary (seg : str) : Prop :=
  seg ≠ [] ∧ seg ≠ [Path.dot] ∧ seg ≠ Path.dotdot ∧ Path.slash ∉ seg.

(** *** Texts as fields between delimiters

    A text read as fields: the maximal runs of characters that are not
    delimiters, [D] telling which characters are delimiters (in rendered
    HTML: quotes, blanks, angle brackets). *)

(** The fields of a text, from left to right. *)
Fixpoint fields_go (D : ascii → bool) (cur text : str) : list str :=
  match text with
  | [] => [reverse cur]
  | c :: text' =>
      if D c then reverse cur :: fields_go D [] text'
      else fields_go D (c :: cur) text'
  end.

Definition fields (D : ascii → bool) (text : str) : list str := fields_go D [] text.

(** The text with [g] applied to every field, the delimiters kept. *)
Fixpoint map_fields_go (D : ascii → bool) (g : str → str) (cur text : str) : str :=
  match text with
  | [] => g (reverse cur)
  | c :: text' =>
      if D c then g (reverse cur) ++ c :: map_fields_go D g [] text'
      else map_fields_go D g (c :: cur) text'
  end.

Definition map_fields (D : ascii → bool) (g : str → str) (text : str) : str :=
  map_fields_go D g [] text.

(** No character of [x] is a delimiter. *)
Definition plain (D : ascii → bool) (x : str) : bool := forallb (λ c, negb (D c)) x.

Definition no_dollar (x : str) : bool := negb (bool_decide ("$"%char ∈ x)).

(** The shape of the suffix appended by the path mapper. *)
Definition suffix_like (t : str) : Prop := ∃ t', t = "_"%char :: t' ∧ Path.slash ∉ t'.

(** The path [urlToLocalPath] makes of a decoded pathname, before the
    query is considered. *)
Definition mapped_path (p : str) : str :=
  let p := if endsWith p "/" then p ++ "index" else p in
  if startsWith p "/" then drop 1 p else p.

End Aux.

Import Aux.

(** ** Concrete inputs

    A small site on [example.test], used to run the script. *)

Module Scenario.

Definition config : Config :=
  {| START_URL := lit "https://example.test/app/";
     PATH_PREFIX := lit "/app/";
     OUTPUT_DIR := lit "/out";
     MAX_PAGES := 5 |}.

(** No page, nothing on the network. *)
Definition offline : Host := RefHost.make [] (RefHost.pages_of []).

Definition state_of (f : FS) : State :=
  {| fs := f; fetched := []; toVisit := []; visited := ∅;
     assetsDownloaded := ∅; urlToLocal := [] |}.

(** A file system that holds one file. *)
Definition one_file (p data : str) : FS := {| files := {[p := data]}; dirs := ∅ |}.

End Scenario.

(** ** Notions of the specification *)

Section Notions.
Context {url_api : UrlApi} {host : Host} {config : Config}.

(** Frontier admission as the specification words it: the href [a] found
    on the page [nurl] resolves to a URL whose hostname is the start
    hostname and whose path begins with the path prefix, it normalizes to
    [norm], and [norm] is neither visited nor pending in the state [s]. *)
Definition admitted (s : State) (nurl a norm : str) : Prop :=
  ∃ (u absObj : URL),
    URL_new_base a nurl = Some u
    ∧ URL_new (toString u) = Some absObj
    ∧ START_HOSTNAME = Some (hostname absObj)
    ∧ startsWith (pathname absObj) PATH_PREFIX = true
    ∧ normalize (toString u) = Some norm
    ∧ norm ≠ []
    ∧ (norm ∉ visited s)
    ∧ (norm ∉ toVisit s).

(** The protocol-relative form of a mapped URL, as the rewriter builds
    it. *)
Definition originLess (url : str) : option str :=
  match URL_new url with
  | Some u => Some ("//" ++ hostname u ++ pathname u ++ search u)
  | None => None
  end.

(** What one round of the rewriting loop does to a text. *)
Definition substitute (htmlFilePath : str) (e : str * str) (x : str) : str :=
  match originLess e.1 with
  | Some ol =>
      let rel := makeRelativeForHtml htmlFilePath e.2 in
      replace_all (replace_all x e.1 rel) ol rel
  | None => x
  end.

(** What the rewriter is meant to make of one field: the relative path of
    the first entry whose URL, or protocol-relative form, the field is. *)
Fixpoint rewrite_field (htmlFilePath : str) (entries : list (str * str)) (x : str) : str :=
  match entries with
  | [] => x
  | e :: entries' =>
      if bool_decide (x = e.1) || bool_decide (originLess e.1 = Some x)
      then makeRelativeForHtml htmlFilePath e.2
      else rewrite_field htmlFilePath entries' x
  end.

(** An entry the rewriter can handle by plain substitution: its URL
    parses; the URL, its protocol-relative form and its relative path
    contain no delimiter; the relative path contains no [$], and no mapped
    URL or protocol-relative form occurs in it; and no mapped URL is this
    entry's protocol-relative form. *)
Definition entry_ok (D : ascii → bool) (htmlFilePath : str) (entries : list (str * str))
    (e : str * str) : bool :=
  match originLess e.1 with
  | None => false
  | Some ol =>
      let rel := makeRelativeForHtml htmlFilePath e.2 in
      truthy e.1 && plain D e.1 && plain D ol && plain D rel && no_dollar rel
      && forallb (λ e', negb (includes rel e'.1)
                        && negb (bool_decide (e'.1 = ol))
                        && match originLess e'.1 with
                           | Some ol' => negb (includes rel ol')
                           | None => false
                           end) entries
  end.

(** A field in which mapped URLs occur only as the whole field, and
    protocol-relative forms only as the whole field or inside their own
    URL. *)
Definition field_ok (entries : list (str * str)) (x : str) : bool :=
  forallb (λ e, match originLess e.1 with
                | None => false
                | Some ol =>
                    implb (includes x e.1) (bool_decide (x = e.1))
                    && implb (includes x ol) (bool_decide (x = ol) || bool_decide (x = e.1))
                end) entries.

(** Texts and maps on which substitution is exact. *)
Definition separated (D : ascii → bool) (htmlFilePath : str) (entries : list (str * str))
    (text : str) : bool :=
  bool_decide (NoDup (fst <$> entries))
  && forallb (entry_ok D htmlFilePath entries) entries
  && forallb (field_ok entries) (fields D text).




End Notions.

(** A site without end: every page links to one more page below it. *)
Module Chain.

Definition pages (nurl : str) : Rendered :=
  RefHost.page (lit "<a href='x/'>next</a>") [] [nurl ++ lit "x/"].

Definition host : Host := RefHost.make [] pages.

End Chain.

(** A page with one stylesheet, in three variants of the site: the font
    the stylesheet refers to is served; it is missing; the stylesheet
    imports a second stylesheet that refers to an image. *)
Module Styles.

Definition page_url : str := lit "https://example.test/app/".
Definition css_url : str := lit "https://example.test/app/css/a.css".
Definition css_path : str := lit "/out/app/css/a.css".
Definition font_url : str := lit "https://example.test/app/css/fonts/x.woff".
Definition font_path : str := lit "/out/app/css/fonts/x.woff".
Definition inner_url : str := lit "https://example.test/app/css/b.css".
Definition image_url : str := lit "https://example.test/app/css/i.png".


Definition html : str :=
  lit "<link rel='stylesheet' href='https://example.test/app/css/a.css'>".

Definition css_text : str := lit "a{src:url(fonts/x.woff)}".
Definition outer_text : str := lit "@import url(b.css);".
Definition inner_text : str := lit "b{background:url(i.png)}".

Definition pages : str → Rendered :=
  RefHost.pages_of [(page_url, RefHost.page html [css_url] [])].

Definition with_font : Host :=
  RefHost.make [(css_url, css_text); (font_url, lit "WOFF")] pages.

Definition without_font : Host := RefHost.make [(css_url, css_text)] pages.

Definition nested : Host :=
  RefHost.make [(css_url, outer_text); (inner_url, inner_text); (image_url, lit "PNG")]
    pages.


End Styles.

(** Pages and maps for the rewriter. *)
Module Pages.

Definition html_path : str := lit "/out/app/index.html".

(** Quotes, blanks, angle brackets and the equals sign delimit fields. *)
Definition is_delim (c : ascii) : bool :=
  bool_decide (c ∈ double_quote :: lit "' <>=").

Definition entries : list (str * str) :=
  [(lit "https://example.test/app/img/a.png", lit "/out/app/img/a.png");
   (lit "https://example.test/app/css/a.css", lit "/out/app/css/a.css")].

Definition text : str :=
  lit "<img src='https://example.test/app/img/a.png'><link href='//example.test/app/css/a.css'>".

(** Two assets of which one URL is the beginning of the other. *)
Definition overlapping : list (str * str) :=
  [(lit "https://example.test/app/a", lit "/out/app/a");
   (lit "https://example.test/app/a?x=1", lit "/out/app/a_3f783d31")].

Definition overlapping_text : str := lit "<img src='https://example.test/app/a?x=1'>".

(** A text in which the protocol-relative form sits inside what becomes
    the URL once it is replaced. *)
Definition single : list (str * str) := [(lit "https://example.test/x", lit "/out/x")].

Definition nesting_text : str := lit "https://example.test///example.test/xx".

End Pages.

(** * Properties *)

(** ** Closed scenarios *)

(** A computation that yields a state satisfying [P] has such a final
    state; the premise is decided by evaluation on closed inputs. *)
Lemma final_state_witness {A} (c : option A) (P : A → Prop) :
  from_option P False c → ∃ s, c = Some s ∧ P s.
Proof. destruct c as [s|]; [by exists s|done]. Qed.

Lemma final_state_witness2 {A B} (c : option A) (f : A → option B) (P : B → Prop) :
  from_option P False (c ≫= f) → ∃ a b, c = Some a ∧ f a = Some b ∧ P b.
Proof.
  destruct c as [a|]; [|done]. simpl. destruct (f a) as [b|] eqn:E; [|done].
  intros HP. by exists a, b.
Qed.

Ltac run_crawl := apply final_state_witness; vm_compute.


(** ** Strings: prefixes, occurrences, splitting and replacing *)

Section StringFacts.
Implicit Types s p sep pat rel cur : str.

Lemma startsWith_prefix s p : startsWith s p = true ↔ p `prefix_of` s.
Proof.
  revert s. induction p as [|c p IH]; intros s; simpl.
  - split; [intros _; apply prefix_nil | done].
  - destruct s as [|d s].
    + split; [done | intros [k Hk]; discriminate].
    + rewrite andb_true_iff, bool_decide_eq_true, IH. split.
      * intros [-> Hp]. by apply prefix_cons.
      * intros [k Hk]. injection Hk as -> ->. split; [done | by exists k].
Qed.

Lemma startsWith_app p r : startsWith (p ++ r) p = true.
Proof. apply startsWith_prefix. by exists r. Qed.

Lemma startsWith_inv s p : startsWith s p = true → s = p ++ drop (length p) s.
Proof.
  intros [k ->]%startsWith_prefix. by rewrite drop_app_length.
Qed.

Lemma startsWith_nil_r s : startsWith s [] = true.
Proof. by destruct s. Qed.

Lemma includes_occurs s p : includes s p = true ↔ ∃ a b, s = a ++ p ++ b.
Proof.
  induction s as [|c s IH]; simpl.
  - rewrite orb_false_r, startsWith_prefix. split.
    + intros [k Hk]. by exists [], k.
    + intros (a & b & Hab). symmetry in Hab.
      apply app_eq_nil in Hab as [-> [-> ->]%app_eq_nil]. done.
  - rewrite orb_true_iff, startsWith_prefix, IH. split.
    + intros [[k Hk] | (a & b & ->)]; [by exists [], k | by exists (c :: a), b].
    + intros (a & b & Hab). destruct a as [|d a]; simpl in Hab.
      * left. by exists b.
      * injection Hab as -> ->. right. by exists a, b.
Qed.

Lemma includes_false_app s p a b :
  includes s p = false → s ≠ a ++ p ++ b.
Proof.
  intros Hn ->. assert (includes (a ++ p ++ b) p = true) as Ht
    by (apply includes_occurs; eauto). congruence.
Qed.

(** Scanning for a non-empty pattern: either the string is over, or the
    pattern is met and the scan resumes after it, or one character is
    passed. *)
Lemma scan_ind sep (Hsep : sep ≠ []) (P : str → Prop) :
  P [] →
  (∀ r, P r → P (sep ++ r)) →
  (∀ c s, startsWith (c :: s) sep = false → P s → P (c :: s)) →
  ∀ s, P s.
Proof.
  intros Hnil Hmatch Hskip s.
  remember (length s) as n eqn:Hn. revert s Hn.
  induction n as [n IH] using lt_wf_ind. intros s ->.
  destruct s as [|c s]; [done|].
  destruct (startsWith (c :: s) sep) eqn:Hs.
  - apply startsWith_inv in Hs. rewrite Hs. apply Hmatch.
    eapply IH; [|done]. rewrite length_drop. destruct sep; [done|]. simpl. lia.
  - apply Hskip; [done|]. eapply IH; [|done]. simpl. lia.
Qed.

Lemma split_go_skip sep cur k s :
  split_go sep cur k s = split_go sep cur 0 (drop k s).
Proof.
  revert s. induction k as [|k IH]; intros [|c s]; simpl; done.
Qed.

Lemma split_nonempty s sep : sep ≠ [] → split s sep = split_go sep [] 0 s.
Proof. by destruct sep. Qed.

Lemma split_go_match sep cur r :
  sep ≠ [] → split_go sep cur 0 (sep ++ r) = reverse cur :: split_go sep [] 0 r.
Proof.
  intros Hsep. destruct sep as [|x sep]; [done|].
  change ((x :: sep) ++ r) with (x :: (sep ++ r)). cbn [split_go].
  change (x :: (sep ++ r)) with ((x :: sep) ++ r). rewrite startsWith_app.
  rewrite split_go_skip. simpl. by rewrite drop_app_length.
Qed.

Lemma split_go_pass sep cur c s :
  startsWith (c :: s) sep = false →
  split_go sep cur 0 (c :: s) = split_go sep (c :: cur) 0 s.
Proof. intros Hs. cbn [split_go]. by rewrite Hs. Qed.

(** The piece being collected is the head of the result. *)
Lemma split_go_cur sep cur s :
  sep ≠ [] →
  ∃ h t, split_go sep [] 0 s = h :: t ∧ split_go sep cur 0 s = (reverse cur ++ h) :: t.
Proof.
  intros Hsep. revert cur. induction s as [|r IH|c s Hs IH] using (scan_ind sep Hsep);
    intros cur.
  - exists [], []. by rewrite app_nil_r.
  - exists [], (split_go sep [] 0 r). rewrite !split_go_match by done.
    by rewrite app_nil_r.
  - destruct (IH [c]) as (h & t & H1 & H2).
    destruct (IH (c :: cur)) as (h' & t' & H1' & H2').
    rewrite H1 in H1'. injection H1' as <- <-.
    exists (c :: h), t. rewrite !split_go_pass by done. rewrite H2, H2'.
    split; [done|]. rewrite reverse_cons, <- app_assoc. done.
Qed.

Lemma split_nil sep : sep ≠ [] → split [] sep = [[]].
Proof. by destruct sep. Qed.

Lemma split_match sep r : sep ≠ [] → split (sep ++ r) sep = [] :: split r sep.
Proof.
  intros Hsep. rewrite !split_nonempty by done. by rewrite split_go_match.
Qed.

Lemma split_pass sep c s :
  sep ≠ [] → startsWith (c :: s) sep = false →
  split (c :: s) sep = cons_head c (split s sep).
Proof.
  intros Hsep Hs. rewrite !split_nonempty by done. rewrite split_go_pass by done.
  destruct (split_go_cur sep [c] s Hsep) as (h & t & -> & ->). done.
Qed.

Lemma split_not_nil s sep : sep ≠ [] → split s sep ≠ [].
Proof.
  intros Hsep. rewrite split_nonempty by done.
  destruct (split_go_cur sep [] s Hsep) as (h & t & -> & _). done.
Qed.

Lemma join_cons sep x l : l ≠ [] → join sep (x :: l) = x ++ sep ++ join sep l.
Proof. by destruct l. Qed.

Lemma join_cons_head sep c l : join sep (cons_head c l) = c :: join sep l.
Proof. destruct l as [|h [|h' t]]; done. Qed.

(** [s.split(sep).join(sep)] is [s]. *)
Lemma join_split s sep : sep ≠ [] → join sep (split s sep) = s.
Proof.
  intros Hsep. induction s as [|r IH|c s Hs IH] using (scan_ind sep Hsep).
  - by rewrite split_nil.
  - rewrite split_match by done. rewrite join_cons by by apply split_not_nil.
    by rewrite IH.
  - rewrite split_pass by done. by rewrite join_cons_head, IH.
Qed.

(** Without [$] the replacement text stands for itself. *)
Lemma expand_plain rel m b a : "$"%char ∉ rel → expand rel m b a = rel.
Proof.
  induction rel as [|c rel IH]; [done|]. intros Hc.
  apply not_elem_of_cons in Hc as [Hc Hrel]. simpl.
  rewrite bool_decide_eq_false_2 by done. by rewrite IH.
Qed.

Lemma replace_go_skip pat rel b k s :
  pat ≠ [] → "$"%char ∉ rel →
  replace_go pat rel b k s = replace_all (drop k s) pat rel.
Proof.
  intros Hpat Hrel. unfold replace_all. revert b k.
  induction s as [|c s IH]; intros b k.
  - rewrite drop_nil. destruct pat; [done|]. by destruct k.
  - destruct k as [|k]; [|by apply IH].
    rewrite drop_0. cbn [replace_go]. destruct (startsWith (c :: s) pat).
    + rewrite !expand_plain by done. destruct pat as [|x pat]; [done|].
      by rewrite (IH (c :: b)), (IH [c]).
    + by rewrite (IH (c :: b)), (IH [c]).
Qed.

Lemma replace_all_nil pat rel : pat ≠ [] → replace_all [] pat rel = [].
Proof. by destruct pat. Qed.

Lemma replace_all_match pat rel r :
  pat ≠ [] → "$"%char ∉ rel →
  replace_all (pat ++ r) pat rel = rel ++ replace_all r pat rel.
Proof.
  intros Hpat Hrel. destruct pat as [|x pat]; [done|].
  unfold replace_all at 1. change ((x :: pat) ++ r) with (x :: (pat ++ r)).
  cbn [replace_go]. change (x :: (pat ++ r)) with ((x :: pat) ++ r).
  rewrite startsWith_app, expand_plain by done.
  rewrite replace_go_skip by done. by rewrite drop_app_length.
Qed.

Lemma replace_all_pass pat rel c s :
  pat ≠ [] → "$"%char ∉ rel → startsWith (c :: s) pat = false →
  replace_all (c :: s) pat rel = c :: replace_all s pat rel.
Proof.
  intros Hpat Hrel Hs. unfold replace_all at 1. cbn [replace_go]. rewrite Hs.
  rewrite replace_go_skip by done. by rewrite drop_0.
Qed.

(** A global replacement by a text without [$] is [split] then [join]. *)
Lemma replace_all_split_join s pat rel :
  pat ≠ [] → "$"%char ∉ rel →
  replace_all s pat rel = join rel (split s pat).
Proof.
  intros Hpat Hrel. induction s as [|r IH|c s Hs IH] using (scan_ind pat Hpat).
  - by rewrite replace_all_nil, split_nil.
  - rewrite replace_all_match, split_match by done.
    rewrite join_cons by by apply split_not_nil. by rewrite IH.
  - rewrite replace_all_pass, split_pass by done. by rewrite join_cons_head, IH.
Qed.

(** What does not contain the pattern is left as it is. *)
Lemma replace_all_absent s pat rel :
  pat ≠ [] → "$"%char ∉ rel → includes s pat = false → replace_all s pat rel = s.
Proof.
  intros Hpat Hrel. induction s as [|r IH|c s Hs IH] using (scan_ind pat Hpat).
  - by rewrite replace_all_nil.
  - intros Hn. exfalso. by eapply (includes_false_app _ _ [] r).
  - simpl. rewrite Hs. simpl. intros Hn. by rewrite replace_all_pass, IH.
Qed.

Lemma replace_all_self pat rel :
  pat ≠ [] → "$"%char ∉ rel → replace_all pat pat rel = rel.
Proof.
  intros Hpat Hrel. rewrite <- (app_nil_r pat) at 1.
  rewrite replace_all_match, replace_all_nil by done. by rewrite app_nil_r.
Qed.

End StringFacts.

(** ** The hexadecimal suffix is injective *)

Section HexFacts.
Implicit Types s r : str.

Lemma hex_cons c s : hex (c :: s) = (utf8 c ≫= hex_byte) ++ hex s.
Proof. done. Qed.

Lemma unhex_char_hex c r : unhex_char ((utf8 c ≫= hex_byte) ++ r) = Some (c, r).
Proof. destruct c as [[] [] [] [] [] [] [] []]; reflexivity. Qed.

Lemma hex_inj s1 s2 : hex s1 = hex s2 → s1 = s2.
Proof.
  revert s2. induction s1 as [|c1 s1 IH]; intros [|c2 s2] Heq; [done| | |].
  - apply (f_equal unhex_char) in Heq. by rewrite hex_cons, unhex_char_hex in Heq.
  - apply (f_equal unhex_char) in Heq. by rewrite hex_cons, unhex_char_hex in Heq.
  - apply (f_equal unhex_char) in Heq. rewrite !hex_cons, !unhex_char_hex in Heq.
    injection Heq as -> Heq. f_equal. by apply IH.
Qed.

Lemma hex_block_plain c :
  Forall (λ x, x ≠ Path.slash) (utf8 c ≫= hex_byte) ∧ 2 ≤ length (utf8 c ≫= hex_byte).
Proof.
  destruct c as [[] [] [] [] [] [] [] []]; vm_compute;
    (split; [repeat constructor; discriminate | lia]).
Qed.

Lemma hex_no_slash s : Path.slash ∉ hex s.
Proof.
  induction s as [|c s IH]; [by apply not_elem_of_nil|].
  rewrite hex_cons. apply not_elem_of_app. split; [|done].
  destruct (hex_block_plain c) as [Hc _]. rewrite Forall_forall in Hc.
  intros Hin. by apply (Hc _ Hin).
Qed.

Lemma hex_length s : s ≠ [] → 2 ≤ length (hex s).
Proof.
  destruct s as [|c s]; [done|]. intros _. rewrite hex_cons, length_app.
  destruct (hex_block_plain c) as [_ Hc]. lia.
Qed.

End HexFacts.

(** ** Paths: segments, normalisation, extensions *)

Section PathFacts.
Implicit Types s p q t : str.
Implicit Types segs st init : list str.

Lemma startsWith_sep c s : startsWith (c :: s) Path.sep = bool_decide (Path.slash = c).
Proof. simpl. by rewrite andb_true_r. Qed.

Lemma sep_not_nil : Path.sep ≠ [].
Proof. done. Qed.

Lemma split_sep_match r : split (Path.slash :: r) Path.sep = [] :: split r Path.sep.
Proof. apply (split_match Path.sep r sep_not_nil). Qed.

Lemma split_sep_pass c s :
  c ≠ Path.slash → split (c :: s) Path.sep = cons_head c (split s Path.sep).
Proof.
  intros Hc. apply split_pass; [done|]. rewrite startsWith_sep.
  by apply bool_decide_eq_false_2.
Qed.

Lemma split_sep_absent t : Path.slash ∉ t → split t Path.sep = [t].
Proof.
  induction t as [|c t IH]; [done|]. intros [Hc Ht]%not_elem_of_cons.
  rewrite split_sep_pass by done. by rewrite IH.
Qed.

(** Induction over a path, one separator or other character at a time. *)
Lemma path_ind (P : str → Prop) :
  P [] → (∀ r, P r → P (Path.slash :: r)) →
  (∀ c s, c ≠ Path.slash → P s → P (c :: s)) → ∀ s, P s.
Proof.
  intros Hnil Hsl Hc s. induction s as [|c s IH]; [done|].
  destruct (decide (c = Path.slash)) as [->|]; auto.
Qed.

Lemma cons_head_snoc c init l :
  ∃ init' l', cons_head c (init ++ [l]) = init' ++ [l'] ∧
    ∀ t, cons_head c (init ++ [l ++ t]) = init' ++ [l' ++ t].
Proof.
  destruct init as [|h init].
  - by exists [], (c :: l).
  - by exists ((c :: h) :: init), l.
Qed.

(** Text without separator appended to a path extends its last piece. *)
Lemma split_sep_snoc p :
  ∃ init l, split p Path.sep = init ++ [l] ∧
    ∀ t, Path.slash ∉ t → split (p ++ t) Path.sep = init ++ [l ++ t].
Proof.
  induction p as [|r IH|c s Hc IH] using path_ind.
  - exists [], []. split; [done|]. intros t Ht. by apply split_sep_absent.
  - destruct IH as (init & l & Hs & Ht). exists ([] :: init), l.
    rewrite split_sep_match, Hs. split; [done|]. intros t Hno.
    change ((Path.slash :: r) ++ t) with (Path.slash :: (r ++ t)).
    by rewrite split_sep_match, Ht.
  - destruct IH as (init & l & Hs & Ht).
    destruct (cons_head_snoc c init l) as (init' & l' & H1 & H2).
    exists init', l'. rewrite split_sep_pass, Hs by done. split; [done|].
    intros t Hno. change ((c :: s) ++ t) with (c :: (s ++ t)).
    by rewrite split_sep_pass, Ht.
Qed.

Lemma cons_head_app c l k : l ≠ [] → cons_head c (l ++ k) = cons_head c l ++ k.
Proof. by destruct l. Qed.

(** Splitting distributes over a separator. *)
Lemma split_sep_app p q :
  split (p ++ Path.sep ++ q) Path.sep = split p Path.sep ++ split q Path.sep.
Proof.
  induction p as [|r IH|c s Hc IH] using path_ind.
  - apply split_sep_match.
  - change ((Path.slash :: r) ++ Path.sep ++ q) with (Path.slash :: (r ++ Path.sep ++ q)).
    by rewrite !split_sep_match, IH.
  - change ((c :: s) ++ Path.sep ++ q) with (c :: (s ++ Path.sep ++ q)).
    rewrite !split_sep_pass, IH by done.
    apply cons_head_app, split_not_nil, sep_not_nil.
Qed.

(** Joining segments without separator and splitting again gives them back. *)
Lemma split_join_sep segs :
  segs ≠ [] → Forall (λ x, Path.slash ∉ x) segs →
  split (join Path.sep segs) Path.sep = segs.
Proof.
  induction segs as [|x segs IH]; [done|]. intros _ Hall.
  apply Forall_cons in Hall as [Hx Hall]. destruct segs as [|y segs].
  - by apply split_sep_absent.
  - rewrite join_cons by done. rewrite split_sep_app, IH by done.
    by rewrite split_sep_absent.
Qed.

Lemma join_snoc segs x : join Path.sep (segs ++ [x]) = join_prefix segs ++ x.
Proof.
  induction segs as [|y segs IH]; [done|].
  destruct segs as [|z segs]; [by unfold join_prefix; simpl; rewrite <- app_assoc|].
  change ((y :: z :: segs) ++ [x]) with (y :: ((z :: segs) ++ [x])).
  rewrite join_cons by done. rewrite IH. unfold join_prefix.
  rewrite (join_cons _ y) by done. by rewrite <- !app_assoc.
Qed.

Lemma join_length_snoc segs x :
  length (join Path.sep segs) ≤ length (join Path.sep (segs ++ [x])).
Proof.
  rewrite join_snoc, length_app. unfold join_prefix.
  destruct segs; [simpl; lia|]. rewrite length_app. lia.
Qed.

Lemma join_prefix_length segs :
  length (join Path.sep segs) ≤ length (join_prefix segs).
Proof. unfold join_prefix. destruct segs; [done|]. rewrite length_app. lia. Qed.

Lemma normalize_render p :
  p ≠ [] →
  Path.normalize p =
    render (Path.isAbsolute p) (endsWith p Path.sep)
           (Path.normalizeString p (negb (Path.isAbsolute p))).
Proof.
  intros Hp. destruct p as [|c p]; [done|]. unfold Path.normalize, render.
  by destruct (join Path.sep _).
Qed.

(** A segment containing [_] is an ordinary one. *)
Lemma norm_step_push a st x : "_"%char ∈ x → Path.norm_step a st x = st ++ [x].
Proof.
  intros Hx. unfold Path.norm_step.
  assert (x ≠ [] ∧ x ≠ [Path.dot] ∧ x ≠ Path.dotdot) as (H1 & H2 & H3).
  { repeat split; intros ->; repeat (apply elem_of_cons in Hx as [Hx|Hx]; [done|]);
      by apply elem_of_nil in Hx. }
  by rewrite !bool_decide_eq_false_2.
Qed.

Lemma norm_step_length a st l :
  length (join Path.sep (Path.norm_step a st l)) ≤ length (join_prefix st) + length l.
Proof.
  pose proof (join_prefix_length st) as Hst. unfold Path.norm_step.
  destruct (bool_decide (l = []) || bool_decide (l = [Path.dot])); [lia|].
  case_bool_decide as Hdd.
  - subst l. destruct (reverse st) as [|lastseg before] eqn:Hrev.
    + apply (f_equal reverse) in Hrev. rewrite reverse_involutive in Hrev. subst st.
      destruct a; simpl; lia.
    + apply (f_equal reverse) in Hrev. rewrite reverse_involutive, reverse_cons in Hrev.
      case_bool_decide.
      * destruct a; [|lia]. rewrite join_snoc, length_app. done.
      * pose proof (join_length_snoc (reverse before) lastseg). rewrite <- Hrev in *. lia.
  - rewrite join_snoc, length_app. lia.
Qed.

Lemma render_length abs tr segs :
  length (render abs tr segs) ≤
    Nat.max 2 ((if abs then 1 else 0) + length (join Path.sep segs) + 1).
Proof.
  unfold render. destruct (join Path.sep segs) as [|c path].
  - destruct abs, tr; simpl; lia.
  - destruct abs, tr; simpl; rewrite ?length_app; simpl; lia.
Qed.

Lemma render_snoc abs st x :
  x ≠ [] →
  render abs false (st ++ [x]) = (if abs then Path.sep else []) ++ join_prefix st ++ x.
Proof.
  intros Hx. unfold render. rewrite join_snoc.
  destruct (join_prefix st ++ x) eqn:Heq.
  - apply app_eq_nil in Heq as [_ ->]. done.
  - by destruct abs.
Qed.

Lemma suffix_like_no_slash t : suffix_like t → Path.slash ∉ t.
Proof. intros (t' & -> & Ht). apply not_elem_of_cons. done. Qed.

Lemma endsWith_suffix p t : suffix_like t → endsWith (p ++ t) Path.sep = false.
Proof.
  intros Ht. pose proof (suffix_like_no_slash t Ht) as Hno.
  destruct Ht as (t' & -> & _). unfold endsWith. rewrite reverse_app.
  destruct (reverse ("_"%char :: t')) as [|c r] eqn:Hrev.
  - apply (f_equal length) in Hrev. rewrite length_reverse in Hrev. done.
  - assert (c ∈ "_"%char :: t') as Hc by (apply elem_of_reverse; rewrite Hrev; left).
    change (reverse Path.sep) with Path.sep.
    change ((c :: r) ++ reverse p) with (c :: (r ++ reverse p)).
    rewrite startsWith_sep. apply bool_decide_eq_false_2. intros <-. done.
Qed.

Lemma isAbsolute_suffix p t : suffix_like t → Path.isAbsolute (p ++ t) = Path.isAbsolute p.
Proof.
  intros (t' & -> & _). destruct p as [|c p]; [done|].
  unfold Path.isAbsolute. change ((c :: p) ++ "_"%char :: t') with (c :: (p ++ "_"%char :: t')).
  by rewrite !startsWith_sep.
Qed.

(** Normalising a path that ends in such a suffix keeps the suffix at the
    end, after a text [z] that depends on the rest of the path only; and
    the path without the suffix normalises to something shorter. *)
Lemma normalize_suffix p :
  ∃ z, (∀ t, suffix_like t → Path.normalize (p ++ t) = z ++ t)
       ∧ (p ≠ [] → length (Path.normalize p) ≤ Nat.max 2 (length z + 1)).
Proof.
  destruct (split_sep_snoc p) as (init & l & Hsplit & Hsnoc).
  remember (Path.isAbsolute p) as abs eqn:Habs.
  remember (foldl (Path.norm_step (negb abs)) [] init) as st eqn:Hst.
  exists ((if abs then Path.sep else []) ++ join_prefix st ++ l). split.
  - intros t Ht. pose proof (suffix_like_no_slash t Ht) as Hno.
    assert (p ++ t ≠ []) as Hne.
    { destruct Ht as (t' & -> & _). by destruct p. }
    rewrite normalize_render by done.
    rewrite endsWith_suffix, isAbsolute_suffix by done. rewrite <- Habs.
    unfold Path.normalizeString. rewrite Hsnoc by done. rewrite foldl_snoc, <- Hst.
    rewrite norm_step_push.
    + rewrite render_snoc; [by rewrite <- !app_assoc|].
      destruct Ht as (t' & -> & _). by destruct l.
    + destruct Ht as (t' & -> & _). apply elem_of_app. right. left.
  - intros Hp. rewrite normalize_render by done. rewrite <- Habs.
    unfold Path.normalizeString. rewrite Hsplit, foldl_snoc, <- Hst.
    etrans; [apply render_length|].
    pose proof (norm_step_length (negb abs) st l). rewrite !length_app.
    assert (length (if abs then Path.sep else []) = (if abs then 1 else 0)) as ->
      by by destruct abs.
    destruct abs; lia.
Qed.

Lemma normalize_add_sep p :
  p ≠ [] → length (Path.normalize p) ≤ length (Path.normalize (p ++ Path.sep)).
Proof.
  intros Hp. assert (p ++ Path.sep ≠ []) as Hne by by destruct p.
  rewrite !normalize_render by done.
  assert (Path.isAbsolute (p ++ Path.sep) = Path.isAbsolute p) as -> by by destruct p.
  assert (endsWith (p ++ Path.sep) Path.sep = true) as ->.
  { unfold endsWith. by rewrite reverse_app. }
  assert (∀ a, Path.normalizeString (p ++ Path.sep) a = Path.normalizeString p a) as Hn.
  { intros a. unfold Path.normalizeString.
    rewrite <- (app_nil_r Path.sep) at 1. rewrite split_sep_app.
    change (split [] Path.sep) with [[] : str]. by rewrite foldl_snoc. }
  rewrite Hn. unfold render. destruct (join Path.sep _) as [|e path].
  - destruct (Path.isAbsolute p), (endsWith p Path.sep); simpl; lia.
  - destruct (Path.isAbsolute p), (endsWith p Path.sep);
      simpl; rewrite ?length_app; simpl; lia.
Qed.

Lemma join2_suffix out q :
  ∃ z, (∀ t, suffix_like t → Path.join2 out (q ++ t) = z ++ t)
       ∧ length (Path.join2 out q) ≤ Nat.max 2 (length z + 1).
Proof.
  destruct out as [|c out].
  - destruct (normalize_suffix q) as (z & Hz & Hlen). exists z. split.
    + intros t Ht. rewrite <- Hz by done. unfold Path.join2.
      destruct Ht as (t' & -> & _). by destruct q.
    + destruct q as [|d q]; [simpl; lia|]. by apply Hlen.
  - destruct q as [|d q].
    + destruct (normalize_suffix ((c :: out) ++ Path.sep)) as (z & Hz & Hlen).
      exists z. split.
      * intros t Ht. rewrite <- Hz by done. rewrite <- app_assoc.
        destruct Ht as (t' & -> & _). done.
      * change (Path.join2 (c :: out) []) with (Path.normalize (c :: out)).
        etrans; [by apply normalize_add_sep|]. by apply Hlen.
    + destruct (normalize_suffix ((c :: out) ++ Path.sep ++ d :: q)) as (z & Hz & Hlen).
      exists z. split.
      * intros t Ht. rewrite <- Hz by done. by rewrite <- !app_assoc.
      * by apply Hlen.
Qed.

(** *** Extensions of mapped paths *)

Lemma take_while_app_stop f s c r :
  f c = false → take_while f (s ++ c :: r) = take_while f s.
Proof.
  intros Hc. induction s as [|d s IH]; simpl; [by rewrite Hc|].
  destruct (f d); by rewrite ?IH.
Qed.

Lemma endsWith_sep_rev p :
  endsWith p Path.sep = true ↔ ∃ r, reverse p = Path.slash :: r.
Proof.
  unfold endsWith. change (reverse Path.sep) with Path.sep.
  destruct (reverse p) as [|c r].
  - split; [done | by intros [? ?]].
  - rewrite startsWith_sep, bool_decide_eq_true. split.
    + intros <-. by eexists.
    + by intros [? [= ->]].
Qed.

Lemma last_component_index p :
  p = [] ∨ endsWith p Path.sep = true →
  Path.last_component_rev (p ++ "index") = lit "xedni".
Proof.
  intros Hp. unfold Path.last_component_rev. rewrite reverse_app.
  change (reverse (lit "index")) with (lit "xedni").
  destruct Hp as [-> | [r Hr]%endsWith_sep_rev]; [done|].
  rewrite Hr. done.
Qed.

Lemma last_component_strip r :
  endsWith (Path.slash :: r) Path.sep = false →
  Path.last_component_rev (Path.slash :: r) = Path.last_component_rev r.
Proof.
  intros Hend. unfold Path.last_component_rev. rewrite reverse_cons.
  unfold endsWith in Hend. rewrite reverse_cons in Hend.
  change (reverse Path.sep) with Path.sep in Hend.
  destruct (reverse r) as [|c rr]; [done|].
  change ((c :: rr) ++ [Path.slash]) with (c :: (rr ++ [Path.slash])) in *.
  rewrite startsWith_sep in Hend. apply bool_decide_eq_false_1 in Hend.
  assert (Path.is_slash c = false) as Hc
    by (unfold Path.is_slash; by apply bool_decide_eq_false_2).
  cbn [drop_while]. rewrite Hc.
  change (c :: rr ++ [Path.slash]) with ((c :: rr) ++ Path.slash :: []).
  apply take_while_app_stop. unfold Path.is_slash. by rewrite bool_decide_eq_true_2.
Qed.

Lemma extname_last_component p q :
  Path.last_component_rev p = Path.last_component_rev q → Path.extname p = Path.extname q.
Proof. unfold Path.extname. by intros ->. Qed.

(** A path that ends with a separator is mapped to a file [index], which
    has no extension. *)
Lemma extname_mapped_index p :
  endsWith p Path.sep = true →
  Path.extname (if startsWith (p ++ "index") "/" then drop 1 (p ++ "index") else p ++ "index") = [].
Proof.
  intros Hend. assert (∀ q, q = [] ∨ endsWith q Path.sep = true →
    Path.extname (q ++ "index") = []) as Hidx.
  { intros q Hq. unfold Path.extname. by rewrite last_component_index. }
  destruct p as [|c p]; [done|].
  change ((c :: p) ++ lit "index") with (c :: (p ++ lit "index")).
  change (lit "/") with Path.sep. rewrite startsWith_sep. case_bool_decide as Hc.
  - subst c. simpl. apply Hidx. apply endsWith_sep_rev in Hend as [r Hr].
    rewrite reverse_cons in Hr. destruct (reverse p) as [|d rp] eqn:Hrp.
    + left. apply (f_equal reverse) in Hrp. by rewrite reverse_involutive in Hrp.
    + right. apply endsWith_sep_rev. injection Hr as -> _. by eexists.
  - apply (Hidx (c :: p)). by right.
Qed.

(** Any other path keeps its extension when the leading separator goes. *)
Lemma extname_mapped_keep p :
  endsWith p Path.sep = false →
  Path.extname (if startsWith p "/" then drop 1 p else p) = Path.extname p.
Proof.
  intros Hend. destruct p as [|c p]; [done|].
  change (lit "/") with Path.sep. rewrite startsWith_sep. case_bool_decide as Hc; [|done].
  subst c. simpl. symmetry. by apply extname_last_component, last_component_strip.
Qed.

(** *** A relative path leads back to its target *)

Lemma split_sep_no_slash p : Forall (λ x, Path.slash ∉ x) (split p Path.sep).
Proof.
  induction p as [|r IH|c s Hc IH] using path_ind.
  - apply Forall_singleton, not_elem_of_nil.
  - rewrite split_sep_match. apply Forall_cons. split; [apply not_elem_of_nil|done].
  - rewrite split_sep_pass by done.
    destruct (split s Path.sep) as [|h t]; [apply Forall_singleton|].
    + apply not_elem_of_cons. split; [done|apply not_elem_of_nil].
    + apply Forall_cons in IH as [Hh Ht]. apply Forall_cons. split; [|done].
      apply not_elem_of_cons. split; [done|done].
Qed.

Lemma norm_step_ordinary res seg :
  Path.slash ∉ seg → Forall ordinary res → Forall ordinary (Path.norm_step false res seg).
Proof.
  intros Hseg Hres. unfold Path.norm_step.
  destruct (bool_decide (seg = [])) eqn:H1; [done|].
  destruct (bool_decide (seg = [Path.dot])) eqn:H2; [done|]. cbn [orb].
  apply bool_decide_eq_false_1 in H1, H2.
  case_bool_decide as H3.
  - destruct (reverse res) as [|lastseg before] eqn:Hrev; [done|].
    case_bool_decide; [done|].
    apply (f_equal reverse) in Hrev. rewrite reverse_involutive, reverse_cons in Hrev.
    rewrite Hrev in Hres. by apply Forall_app in Hres as [? _].
  - apply Forall_app. split; [done|]. by apply Forall_singleton.
Qed.

Lemma foldl_norm_step_ordinary res segs :
  Forall (λ x, Path.slash ∉ x) segs → Forall ordinary res →
  Forall ordinary (foldl (Path.norm_step false) res segs).
Proof.
  revert res. induction segs as [|seg segs IH]; intros res Hsegs Hres; [done|].
  apply Forall_cons in Hsegs as [Hseg Hsegs]. cbn [foldl].
  apply IH; [done|]. by apply norm_step_ordinary.
Qed.

Lemma resolve_segs_ordinary cwd p : Forall ordinary (Path.resolve_segs cwd p).
Proof.
  unfold Path.resolve_segs, Path.normalizeString.
  apply foldl_norm_step_ordinary; [apply split_sep_no_slash | done].
Qed.

Lemma strip_common_split (a b up down : list str) :
  Path.strip_common a b = (up, down) → ∃ c, a = c ++ up ∧ b = c ++ down.
Proof.
  revert b. induction a as [|x a IH]; intros b Hs.
  - exists []. by injection Hs as <- <-.
  - destruct b as [|y b].
    + exists []. by injection Hs as <- <-.
    + cbn [Path.strip_common] in Hs. case_bool_decide as Hxy.
      * subst y. destruct (IH b Hs) as (c & -> & ->). by exists (x :: c).
      * exists []. by injection Hs as <- <-.
Qed.

Lemma norm_step_pop a res x :
  x ≠ Path.dotdot → Path.norm_step a (res ++ [x]) Path.dotdot = res.
Proof.
  intros Hx. unfold Path.norm_step. cbn. rewrite reverse_snoc.
  rewrite (bool_decide_eq_true_2 (Path.dotdot = Path.dotdot)) by done.
  rewrite (bool_decide_eq_false_2 (x = Path.dotdot)) by done. apply reverse_involutive.
Qed.

(** [..] segments undo ordinary segments, one each. *)
Lemma foldl_norm_step_up c up :
  Forall ordinary up →
  foldl (Path.norm_step false) (c ++ up) ((λ _, Path.dotdot) <$> up) = c.
Proof.
  induction up as [|x up IH] using rev_ind; intros Hup.
  - cbn. by rewrite app_nil_r.
  - apply Forall_app in Hup as [Hup Hx]. rewrite Forall_singleton in Hx.
    rewrite fmap_app. cbn [fmap list_fmap].
    assert (((λ _ : str, Path.dotdot) <$> up) ++ [Path.dotdot]
            = Path.dotdot :: ((λ _ : str, Path.dotdot) <$> up)) as ->.
    { clear. induction up as [|y up IH]; [done|]. cbn. by rewrite IH. }
    cbn [foldl]. rewrite app_assoc. destruct Hx as (_ & _ & Hx & _).
    rewrite norm_step_pop by done. by apply IH.
Qed.

(** Ordinary segments are appended as they are. *)
Lemma foldl_norm_step_down c down :
  Forall ordinary down → foldl (Path.norm_step false) c down = c ++ down.
Proof.
  revert c. induction down as [|x down IH]; intros c Hdown.
  - by rewrite app_nil_r.
  - apply Forall_cons in Hdown as [(H1 & H2 & H3 & _) Hdown]. cbn [foldl].
    unfold Path.norm_step at 2. rewrite !bool_decide_eq_false_2 by done. cbn [orb].
    rewrite IH by done. by rewrite <- app_assoc.
Qed.

Lemma isAbsolute_app p q : p ≠ [] → Path.isAbsolute (p ++ q) = Path.isAbsolute p.
Proof. intros Hp. destruct p as [|c p]; [done|]. unfold Path.isAbsolute. cbn. done. Qed.

Lemma resolve_segs_app cwd p q :
  p ≠ [] →
  Path.resolve_segs cwd (p ++ Path.sep ++ q)
  = foldl (Path.norm_step false) (Path.resolve_segs cwd p) (split q Path.sep).
Proof.
  intros Hp. unfold Path.resolve_segs, Path.normalizeString.
  rewrite isAbsolute_app by done.
  destruct p as [|c p]; [done|].
  change ((c :: p) ++ Path.sep ++ q) with (c :: (p ++ Path.sep ++ q)). cbn match.
  destruct (Path.isAbsolute (c :: p)).
  - change (c :: (p ++ Path.sep ++ q)) with ((c :: p) ++ Path.sep ++ q).
    by rewrite split_sep_app, foldl_app.
  - change (cwd ++ Path.sep ++ c :: p ++ Path.sep ++ q)
      with (cwd ++ Path.sep ++ (c :: p) ++ Path.sep ++ q).
    rewrite (app_assoc cwd), (app_assoc (cwd ++ Path.sep)).
    rewrite split_sep_app, foldl_app. by rewrite <- !app_assoc.
Qed.

(** [path.relative(from, to)], read from the directory [from], resolves to
    what [to] resolves to. *)
Lemma relative_resolves cwd from to :
  from ≠ [] →
  Path.resolve cwd (from ++ Path.sep ++ Path.relative cwd from to) = Path.resolve cwd to.
Proof.
  intros Hfrom. unfold Path.resolve. f_equal. rewrite resolve_segs_app by done.
  unfold Path.relative. case_bool_decide as Heq.
  { subst to. done. }
  destruct (Path.strip_common _ _) as [up down] eqn:Hstrip.
  destruct (strip_common_split _ _ _ _ Hstrip) as (c & HA & HB).
  pose proof (resolve_segs_ordinary cwd from) as Hord_from.
  pose proof (resolve_segs_ordinary cwd to) as Hord_to.
  rewrite HA in Hord_from. rewrite HB in Hord_to.
  apply Forall_app in Hord_from as [_ Hup]. apply Forall_app in Hord_to as [_ Hdown].
  rewrite HA, HB.
  destruct (((λ _ : str, Path.dotdot) <$> up) ++ down) as [|x segs] eqn:Hsegs.
  - apply app_eq_nil in Hsegs as [Hu ->]. apply fmap_nil_inv in Hu. subst up.
    cbn. by rewrite !app_nil_r.
  - rewrite <- Hsegs. rewrite split_join_sep.
    + rewrite foldl_app, foldl_norm_step_up by done. by apply foldl_norm_step_down.
    + by rewrite Hsegs.
    + apply Forall_app. split.
      * apply Forall_fmap, Forall_true. intros y. cbn.
        unfold Path.dotdot. intros Hin. repeat (apply elem_of_cons in Hin as [Hin|Hin]; [done|]).
        by apply elem_of_nil in Hin.
      * eapply Forall_impl; [exact Hdown|]. by intros y (_&_&_&?).
Qed.

End PathFacts.

(** ** Path mapper *)

Section PathMapper.
Context {url_api : UrlApi} {host : Host} {config : Config}.
Implicit Types url p l : str.





Lemma extname_mapped_path p :
  Path.extname (mapped_path p) = if endsWith p "/" then [] else Path.extname p.
Proof.
  unfold mapped_path. destruct (endsWith p "/") eqn:Hend.
  - by apply extname_mapped_index.
  - by apply extname_mapped_keep.
Qed.

Lemma urlToLocalPath_eq url u p :
  URL_new url = Some u → decodeURIComponent (pathname u) = Some p →
  urlToLocalPath url =
    Some (Path.join2 OUTPUT_DIR
            (if negb (truthy (Path.extname (mapped_path p))) && truthy (search u)
             then mapped_path p ++ "_" ++ hex (search u) else mapped_path p)).
Proof. intros Hu Hp. unfold urlToLocalPath. by rewrite Hu, Hp. Qed.

Lemma suffix_like_hex x : suffix_like ("_" ++ hex x).
Proof. exists (hex x). split; [done | apply hex_no_slash]. Qed.

Lemma truthy_false x : truthy x = false ↔ x = [].
Proof. by destruct x. Qed.

Lemma truthy_true x : truthy x = true ↔ x ≠ [].
Proof. by destruct x. Qed.

(** C5: two parseable URLs that differ only in their query string and whose
    decoded path has no file extension are mapped to two distinct local
    paths. *)
Theorem urlToLocalPath_query_distinct url1 url2 (u1 u2 : URL) p :
  URL_new url1 = Some u1 → URL_new url2 = Some u2 →
  pathname u1 = pathname u2 → search u1 ≠ search u2 →
  decodeURIComponent (pathname u1) = Some p → Path.extname p = [] →
  ∃ l1 l2, urlToLocalPath url1 = Some l1 ∧ urlToLocalPath url2 = Some l2 ∧ l1 ≠ l2.
Proof.
  intros Hu1 Hu2 Hpath Hsearch Hp Hext.
  rewrite (urlToLocalPath_eq url1 u1 p Hu1 Hp).
  rewrite Hpath in Hp. rewrite (urlToLocalPath_eq url2 u2 p Hu2 Hp).
  assert (Path.extname (mapped_path p) = []) as ->.
  { rewrite extname_mapped_path. by destruct (endsWith p "/"). }
  do 2 eexists. split; [done|]. split; [done|]. simpl.
  destruct (join2_suffix OUTPUT_DIR (mapped_path p)) as (z & Hz & Hlen).
  destruct (truthy (search u1)) eqn:Hs1, (truthy (search u2)) eqn:Hs2.
  - rewrite !Hz by apply suffix_like_hex. intros Heq%app_inv_head.
    injection Heq as Heq%hex_inj. done.
  - apply truthy_true in Hs1. rewrite Hz by apply suffix_like_hex.
    intros Heq%(f_equal length). rewrite length_app in Heq.
    pose proof (hex_length _ Hs1). cbn [length] in Heq. lia.
  - apply truthy_true in Hs2. rewrite Hz by apply suffix_like_hex.
    intros Heq%(f_equal length). rewrite length_app in Heq.
    pose proof (hex_length _ Hs2). cbn [length] in Heq. lia.
  - apply truthy_false in Hs1, Hs2. congruence.
Qed.

End PathMapper.

(** ** Asset pipeline *)

Ltac unfold_monad :=
  unfold lift_opt, throw, gets, modify, try_catch, mbind, M_bind, mret, M_ret in *;
  cbn beta iota in *.

(** ** Reasoning about statements *)

Section Wp.
Context {A B : Type}.
Implicit Types s : State.

Lemma wp_ret (a : A) post exc s : post a s → wp (mret a) post exc s.
Proof. done. Qed.

Lemma wp_throw (post : A → State → Prop) exc s : exc s → wp throw post exc s.
Proof. done. Qed.

Lemma wp_bind (m : M A) (f : A → M B) post exc s :
  wp m (λ a s', wp (f a) post exc s') exc s → wp (m ≫= f) post exc s.
Proof. unfold wp. unfold_monad. by destruct (m s) as [[a|] s']. Qed.

Lemma wp_try_catch (body handler : M A) post exc s :
  wp body post (λ s', wp handler post exc s') s → wp (try_catch body handler) post exc s.
Proof. unfold wp. unfold_monad. by destruct (body s) as [[a|] s']. Qed.

Lemma wp_gets (f : State → A) post exc s : post (f s) s → wp (gets f) post exc s.
Proof. done. Qed.

Lemma wp_lift_opt (o : option A) post exc s :
  match o with Some a => post a s | None => exc s end → wp (lift_opt o) post exc s.
Proof. by destruct o. Qed.

Lemma wp_mono (m : M A) (post post' : A → State → Prop) (exc exc' : State → Prop) s :
  wp m post exc s → (∀ a s', post a s' → post' a s') → (∀ s', exc s' → exc' s') →
  wp m post' exc' s.
Proof. unfold wp. destruct (m s) as [[a|] s']; eauto. Qed.

Lemma wp_snd (m : M A) post exc s :
  wp m post exc s → (∀ a s', post a s' → exc s') → exc (m s).2.
Proof. unfold wp. destruct (m s) as [[a|] s']; simpl; eauto. Qed.

End Wp.

Lemma wp_modify (f : State → State) post exc s : post tt (f s) → wp (modify f) post exc s.
Proof. done. Qed.

Lemma wp_for_each {A} (l : list A) (body : A → M unit) (inv exc : State → Prop) s :
  inv s → (∀ x s', x ∈ l → inv s' → wp (body x) (λ _, inv) exc s') →
  wp (for_each l body) (λ _, inv) exc s.
Proof.
  revert s. induction l as [|x l IH]; intros s Hs Hbody; [done|].
  cbn [for_each]. apply wp_bind. eapply wp_mono; [apply Hbody; [left|done]| |done].
  intros [] s1 Hs1. apply IH; [done|]. intros y s2 Hy. apply Hbody. by right.
Qed.

Lemma always_after_snd {A} (m : M A) P s : always_after m P s → P (m s).2.
Proof. intros Hm. by apply (wp_snd m _ _ s Hm). Qed.

Section Keeps.
Context {A B : Type} (P : State → Prop).

Lemma keeps_ret (a : A) : keeps P (mret a).
Proof. by intros s Hs. Qed.

Lemma keeps_throw : keeps P (@throw A).
Proof. by intros s Hs. Qed.

Lemma keeps_gets (f : State → A) : keeps P (gets f).
Proof. by intros s Hs. Qed.

Lemma keeps_lift_opt (o : option A) : keeps P (lift_opt o).
Proof. intros s Hs. by destruct o. Qed.

Lemma keeps_bind (m : M A) (f : A → M B) :
  keeps P m → (∀ a, keeps P (f a)) → keeps P (m ≫= f).
Proof.
  intros Hm Hf s Hs. apply wp_bind. eapply wp_mono; [by apply Hm| |done].
  intros a s' Hs'. by apply Hf.
Qed.

Lemma keeps_try_catch (body handler : M A) :
  keeps P body → keeps P handler → keeps P (try_catch body handler).
Proof.
  intros Hb Hh s Hs. apply wp_try_catch. eapply wp_mono; [by apply Hb|done|].
  intros s' Hs'. by apply Hh.
Qed.

Lemma keeps_for_each (l : list A) (body : A → M unit) :
  (∀ x, x ∈ l → keeps P (body x)) → keeps P (for_each l body).
Proof.
  intros Hbody s Hs. apply wp_for_each; [done|].
  intros x s' Hx Hs'. by apply Hbody.
Qed.

End Keeps.

Lemma keeps_modify (P : State → Prop) (f : State → State) :
  (∀ s, P s → P (f s)) → keeps P (modify f).
Proof. intros Hf s Hs. by apply Hf. Qed.

Lemma keeps_snd {A} (P : State → Prop) (m : M A) s : keeps P m → P s → P (m s).2.
Proof. intros Hm Hs. by apply always_after_snd, Hm. Qed.

Section AssetPipeline.
Context {url_api : UrlApi} {host : Host} {config : Config}.
Implicit Types url l : str.
Implicit Types s : State.


(** A [data:] URL is turned down before the file system or the network is
    touched. *)
Lemma downloadAndSave_data url l s :
  startsWith url "data:" = true → downloadAndSave url l s = (Normal false, s).
Proof.
  intros Hdata. unfold downloadAndSave.
  destruct (negb (truthy url) || negb (truthy l)); [done|].
  unfold_monad. by rewrite Hdata.
Qed.

(** When the file is there, nothing is fetched and nothing is written. *)
Lemma downloadAndSave_exists url l s :
  url ≠ [] → l ≠ [] → startsWith url "data:" = false → exists_in (fs s) l = true →
  downloadAndSave url l s = (Normal true, s).
Proof.
  intros Hurl Hl Hdata Hex. unfold downloadAndSave.
  apply truthy_true in Hurl, Hl. rewrite Hurl, Hl. cbn [negb orb].
  unfold_monad. rewrite Hdata. unfold existsSync, gets. by rewrite Hex.
Qed.

(** A successful call leaves the file in place, and is either the
    no-fetch case or exactly one request for [url]. *)
Lemma downloadAndSave_true url l s s' :
  downloadAndSave url l s = (Normal true, s') →
  url ≠ [] ∧ l ≠ [] ∧ startsWith url "data:" = false ∧ exists_in (fs s') l = true ∧
  ((exists_in (fs s) l = true ∧ s' = s) ∨
   (exists_in (fs s) l = false ∧ fetched s' = url :: fetched s)).
Proof.
  unfold downloadAndSave. destruct (truthy url) eqn:Hurl; [|done].
  destruct (truthy l) eqn:Hl; [|done]. cbn [negb orb]. unfold_monad.
  apply truthy_true in Hurl, Hl.
  destruct (startsWith url "data:") eqn:Hdata; [done|].
  unfold existsSync, gets. destruct (exists_in (fs s) l) eqn:Hex.
  { intros [= <-]. eauto 10. }
  unfold fetch. destruct (fetchImpl (fetched s) url); try done.
  unfold ensureDir, mkdirSync. cbn [fs set_fetched].
  destruct (mkdir_throws (fs s) _); [done|].
  unfold writeFileSync. cbn [fs set_fs]. destruct (write_throws _ l); [done|].
  intros [= <-]. repeat split; try done.
  - unfold exists_in. cbn. rewrite lookup_insert_eq.
    rewrite bool_decide_eq_true_2 by by eexists. done.
  - right. done.
Qed.

Lemma obj_get_set o k v k' :
  obj_get (obj_set o k v) k' = if bool_decide (k = k') then Some v else obj_get o k'.
Proof.
  induction o as [|[k0 v0] o IH]; simpl.
  - done.
  - destruct (decide (k0 = k)) as [->|Hne].
    + rewrite (bool_decide_eq_true_2 (k = k)) by done. simpl.
      case_bool_decide; done.
    + rewrite (bool_decide_eq_false_2 (k0 = k)) by done. simpl. rewrite IH.
      repeat case_bool_decide; congruence.
Qed.


Lemma obj_get_set_ne o k v k' : k ≠ k' → obj_get (obj_set o k v) k' = obj_get o k'.
Proof. intros Hne. rewrite obj_get_set. by rewrite bool_decide_eq_false_2. Qed.


(** C6, as amended: for a URL that does not begin with [data:] (and a
    non-empty URL and local path; the computed local path is never empty),
    [downloadAndSave] returns success without fetching or writing when the
    file exists; and when a first call succeeds, a second call changes
    nothing and succeeds, the first call having made at most one request:
    none if the file was there, exactly one otherwise. *)
Theorem downloadAndSave_idempotent url l s :
  url ≠ [] → l ≠ [] → startsWith url "data:" = false →
  (exists_in (fs s) l = true → downloadAndSave url l s = (Normal true, s))
  ∧ (∀ s1, downloadAndSave url l s = (Normal true, s1) →
       downloadAndSave url l s1 = (Normal true, s1)
       ∧ (exists_in (fs s) l = true → fetched s1 = fetched s)
       ∧ (exists_in (fs s) l = false → fetched s1 = url :: fetched s)).
Proof.
  intros Hurl Hl Hdata. split; [by apply downloadAndSave_exists|].
  intros s1 Hfirst.
  destruct (downloadAndSave_true _ _ _ _ Hfirst) as (_ & _ & _ & Hex1 & Hcase).
  split; [by apply downloadAndSave_exists|].
  destruct Hcase as [[Hex ->] | [Hex Hf]]; split; intros; congruence.
Qed.


(** *** What the asset pipeline keeps *)

Section Invariants.
Context (P : State → Prop) (HP : asset_invariant P).

Lemma keeps_mkdirSync d : keeps P (mkdirSync d).
Proof.
  intros s Hs. unfold always_after, wp, mkdirSync.
  destruct (mkdir_throws (fs s) d); [done|]. by apply (inv_fs P HP).
Qed.

Lemma keeps_writeFileSync p data : keeps P (writeFileSync p data).
Proof.
  intros s Hs. unfold always_after, wp, writeFileSync.
  destruct (write_throws (fs s) p); [done|]. by apply (inv_fs P HP).
Qed.

Lemma keeps_readFileSync p : keeps P (readFileSync p).
Proof.
  intros s Hs. unfold always_after, wp, readFileSync. by destruct (files (fs s) !! p).
Qed.

Lemma keeps_fetch url : startsWith url "data:" = false → keeps P (fetch url).
Proof.
  intros Hdata s Hs. unfold always_after, wp, fetch.
  pose proof (inv_fetched P HP s url Hdata Hs).
  by destruct (fetchImpl (fetched s) url).
Qed.

(** [downloadAndSave] keeps the property, and succeeds on no [data:] URL. *)
Lemma wp_downloadAndSave url l s :
  P s →
  wp (downloadAndSave url l)
     (λ b s', P s' ∧ (b = true → startsWith url "data:" = false)) (λ _, False) s.
Proof.
  intros Hs. unfold downloadAndSave.
  destruct (negb (truthy url) || negb (truthy l)); [by split|].
  apply wp_try_catch. destruct (startsWith url "data:") eqn:Hdata; [by split|].
  apply wp_bind, wp_gets. destruct (exists_in (fs s) l); [by split|].
  apply wp_bind. eapply wp_mono; [by apply keeps_fetch| |by split].
  cbn beta. intros [buffer|] s1 Hs1; [|by split].
  apply wp_bind. eapply wp_mono; [by apply keeps_mkdirSync| |by split].
  cbn beta. intros _ s2 Hs2.
  apply wp_bind. eapply wp_mono; [by apply keeps_writeFileSync| |by split].
  cbn beta. intros _ s3 Hs3. by split.
Qed.

Lemma keeps_downloadAndSave url l : keeps P (downloadAndSave url l).
Proof.
  intros s Hs. eapply wp_mono; [by apply wp_downloadAndSave| |done].
  by intros b s' [? _].
Qed.

Lemma keeps_download_asset assetUrl : keeps P (download_asset assetUrl).
Proof.
  intros s Hs. unfold download_asset. apply wp_try_catch.
  apply wp_bind, wp_lift_opt. destruct (URL_new assetUrl) as [u|]; [|done].
  destruct (urlToLocalPath assetUrl) as [localPath|]; [|done].
  apply wp_bind, wp_gets. apply wp_bind. case_bool_decide as Halready.
  - apply wp_ret. apply wp_bind, wp_modify, wp_modify.
    apply (inv_record P HP); [by left | done].
  - eapply wp_mono; [by apply wp_downloadAndSave| |done].
    cbn beta. intros [] s1 [Hs1 Hok]; [|done].
    apply wp_bind, wp_modify, wp_modify.
    apply (inv_record P HP); [right; by apply Hok | done].
Qed.

Lemma keeps_css_ref cssUrl cssLocal cssText m :
  keeps P (css_ref cssUrl cssLocal cssText m).
Proof.
  intros s Hs. unfold css_ref. destruct (negb (truthy m.2)); [done|].
  apply wp_try_catch. apply wp_bind, wp_lift_opt.
  destruct (URL_new_base m.2 cssUrl) as [u|]; [|done].
  apply wp_bind, wp_gets. case_bool_decide as Hhas.
  - apply wp_bind, wp_gets. apply wp_bind, wp_lift_opt.
    by destruct (obj_get (urlToLocal s) (toString u)).
  - destruct (urlToLocalPath (toString u)) as [localFull|]; [|done].
    apply wp_bind. eapply wp_mono; [by apply wp_downloadAndSave| |done].
    cbn beta. intros [] s1 [Hs1 Hok]; [|done].
    apply wp_bind, wp_modify, wp_bind, wp_modify, wp_ret.
    apply (inv_record P HP); [right; by apply Hok | done].
Qed.

Lemma keeps_css_refs cssUrl cssLocal cssText matches :
  keeps P (css_refs cssUrl cssLocal cssText matches).
Proof.
  revert cssText. induction matches as [|m matches IH]; intros cssText; [by apply keeps_ret|].
  cbn [css_refs]. apply keeps_bind; [apply keeps_css_ref | intros cssText'; apply IH].
Qed.

Lemma keeps_scan_css cssUrl : keeps P (scan_css cssUrl).
Proof.
  unfold scan_css. apply keeps_bind; [apply keeps_gets|]. intros known.
  apply keeps_try_catch; [|apply keeps_ret].
  apply keeps_bind; [apply keeps_lift_opt|]. intros cssLocal.
  apply keeps_bind; [apply keeps_readFileSync|]. intros cssText.
  apply keeps_bind; [apply keeps_css_refs|]. intros cssText'.
  apply keeps_writeFileSync.
Qed.

Lemma keeps_htmlFilePath_of nurl : keeps P (htmlFilePath_of nurl).
Proof.
  unfold htmlFilePath_of. apply keeps_bind; [apply keeps_lift_opt|]. intros u.
  apply keeps_bind; [apply keeps_lift_opt|]. intros d. apply keeps_ret.
Qed.

End Invariants.

(** *** The stylesheet pass *)

Lemma dirname_not_nil p : Path.dirname p ≠ [].
Proof.
  unfold Path.dirname. destruct p as [|c0 body]; [done|].
  destruct (drop_while _ _) as [|x rest]; [by destruct (Path.is_slash c0)|].
  destruct rest; [by destruct (Path.is_slash c0)|done].
Qed.






Section CssPass.
Context (files0 : gmap str str) (cssUrls : list str).






End CssPass.



End AssetPipeline.

(** ** Crawl frontier and page processor *)

Section Frontier.
Context {url_api : UrlApi} {host : Host} {config : Config}.
Implicit Types s : State.
Implicit Types url nurl a norm : str.

(** C4: an anchor href is pushed on the pending queue exactly when it
    resolves, its hostname is the start hostname, its path begins with the
    path prefix, it normalizes, and its normal form is neither visited nor
    already pending; otherwise the state is left as it is. *)
Theorem enqueue_anchor_admission nurl a s :
  ∃ s', enqueue_anchor nurl a s = (Normal tt, s')
    ∧ ((∃ norm, admitted s nurl a norm ∧ s' = set_toVisit (λ q, q ++ [norm]) s)
       ∨ ((∀ norm, ¬ admitted s nurl a norm) ∧ s' = s)).
Proof.
  unfold enqueue_anchor, admitted. unfold_monad.
  destruct (URL_new_base a nurl) as [u|] eqn:Hu.
  2:{ eexists. split; [done|]. right. split; [|done].
      intros norm (u0 & absObj0 & Hu0 & _). done. }
  destruct (URL_new (toString u)) as [absObj|] eqn:Habs.
  2:{ eexists. split; [done|]. right. split; [|done].
      intros norm (u0 & absObj0 & [= <-] & Habs0 & _). congruence. }
  destruct (bool_decide (START_HOSTNAME = Some (hostname absObj))) eqn:Hhost.
  2:{ eexists. split; [done|]. right. split; [|done].
      apply bool_decide_eq_false_1 in Hhost.
      intros norm (u0 & absObj0 & [= <-] & Habs0 & Hh0 & _). congruence. }
  apply bool_decide_eq_true_1 in Hhost.
  destruct (startsWith (pathname absObj) PATH_PREFIX) eqn:Hprefix.
  2:{ eexists. split; [done|]. right. split; [|done].
      intros norm (u0 & absObj0 & [= <-] & Habs0 & Hh0 & Hp0 & _). congruence. }
  cbn [andb]. destruct (normalize (toString u)) as [norm|] eqn:Hnorm.
  2:{ eexists. split; [done|]. right. split; [|done].
      intros norm (u0 & absObj0 & [= <-] & Habs0 & Hh0 & Hp0 & Hn0 & _). congruence. }
  destruct (truthy norm) eqn:Htruthy.
  2:{ eexists. split; [done|]. right. split; [|done]. apply truthy_false in Htruthy.
      intros norm' (u0 & absObj0 & [= <-] & Habs0 & Hh0 & Hp0 & Hn0 & Hne0 & _).
      congruence. }
  apply truthy_true in Htruthy. cbn [andb]. case_bool_decide as Hvis.
  { eexists. split; [done|]. right. split; [|done].
    intros norm' (u0 & absObj0 & [= <-] & Habs0 & Hh0 & Hp0 & Hn0 & Hne0 & Hv0 & _).
    congruence. }
  cbn [negb andb]. case_bool_decide as Hpending.
  { eexists. split; [done|]. right. split; [|done].
    intros norm' (u0 & absObj0 & [= <-] & Habs0 & Hh0 & Hp0 & Hn0 & Hne0 & Hv0 & Hq0).
    congruence. }
  eexists. split; [done|]. left. exists norm. split; [|done].
  exists u, absObj. done.
Qed.

Lemma frame_invariant (v : gset str) (q : list str) :
  asset_invariant (λ s, visited s = v ∧ toVisit s = q).
Proof. by split. Qed.

Lemma no_data_invariant : asset_invariant no_data.
Proof.
  split.
  - by intros s f Hs.
  - intros s u Hu Hs x Hx. destruct (Hs x Hx) as (Hf & Ha & Hm).
    repeat split; [|done|done]. cbn. apply not_elem_of_cons. split; [congruence|done].
  - intros s u l Hu Hs x Hx. destruct (Hs x Hx) as (Hf & Ha & Hm).
    assert (u ≠ x) as Hne.
    { intros ->. destruct Hu as [Hu|Hu]; [done|congruence]. }
    repeat split; [done| |].
    + cbn. rewrite not_elem_of_union, not_elem_of_singleton. split; [done|congruence].
    + cbn. by rewrite obj_get_set_ne.
  - intros s Hs x Hx. destruct (Hs x Hx) as (Hf & Ha & Hm). by repeat split.
Qed.

(** The anchors loop only appends to the queue, and never a visited URL. *)
Lemma wp_enqueue_anchor nurl a (v : gset str) (q : list str) s :
  visited s = v → (∃ new, toVisit s = q ++ new ∧ Forall (λ x, x ∉ v) new) →
  wp (enqueue_anchor nurl a)
     (λ _ s', visited s' = v ∧ ∃ new, toVisit s' = q ++ new ∧ Forall (λ x, x ∉ v) new)
     (λ _, False) s.
Proof.
  intros Hv (new & Hq & Hnew). unfold wp.
  destruct (enqueue_anchor_admission nurl a s) as (s' & -> & Hs').
  destruct Hs' as [(norm & Hadm & ->) | [_ ->]]; [|eauto].
  split; [done|]. exists (new ++ [norm]). cbn. rewrite Hq, <- app_assoc. split; [done|].
  apply Forall_app. split; [done|]. apply Forall_singleton.
  destruct Hadm as (?&?&?&?&?&?&?&?&?&?). congruence.
Qed.

(** What visiting a page does to the frontier: the page becomes visited,
    whether the visit completes or throws, and the queue only grows by
    URLs that are not visited. *)
Lemma wp_visit nurl s :
  wp (try_catch (visit_page nurl) (modify (set_visited (λ v, v ∪ {[nurl]}))))
     (λ _ s', visited s' = visited s ∪ {[nurl]}
              ∧ ∃ new, toVisit s' = toVisit s ++ new
                       ∧ Forall (λ x, x ∉ visited s ∪ {[nurl]}) new)
     (λ _, False) s.
Proof.
  set (v := visited s). set (q := toVisit s).
  set (P1 := λ s', visited s' = v ∧ toVisit s' = q).
  set (J := λ s', visited s' = v ∪ {[nurl]}
                  ∧ ∃ new, toVisit s' = q ++ new ∧ Forall (λ x, x ∉ v ∪ {[nurl]}) new).
  set (E := λ s', (visited s' = v ∨ visited s' = v ∪ {[nurl]})
                  ∧ ∃ new, toVisit s' = q ++ new ∧ Forall (λ x, x ∉ v ∪ {[nurl]}) new).
  assert (HP1 : asset_invariant P1) by apply frame_invariant.
  assert (HE1 : ∀ s', P1 s' → E s').
  { intros s' [Hv Hq]. split; [by left|]. exists []. by rewrite app_nil_r. }
  assert (HEJ : ∀ s', J s' → E s').
  { intros s' [Hv Hq]. split; [by right|done]. }
  apply wp_try_catch. apply (wp_mono _ (λ _, J) _ E); [|done|].
  2:{ intros s' [Hv Hq]. split; [|done]. cbn. destruct Hv as [Hv|Hv]; rewrite Hv; [done|].
      by rewrite <- (assoc_L (∪)), (idemp_L (∪) _). }
  assert (P1 s) as Hs by done. unfold visit_page.
  apply wp_bind, wp_lift_opt. destruct (goto (browse nurl)); [|by apply HE1].
  apply wp_bind, wp_lift_opt. destruct (content (browse nurl)) as [html|]; [|by apply HE1].
  apply wp_bind, wp_lift_opt.
  destruct (evaluate_assets (browse nurl)) as [assets|]; [|by apply HE1].
  apply wp_bind, wp_modify.
  apply (inv_fresh P1 HP1) in Hs. revert Hs. generalize (set_urlToLocal (λ _, []) s).
  intros s1 Hs1.
  apply wp_bind. eapply wp_mono;
    [apply (keeps_for_each P1); [intros; by apply keeps_download_asset | done] | |done].
  cbn beta. intros _ s2 Hs2.
  apply wp_bind. eapply wp_mono; [by apply (keeps_htmlFilePath_of P1)| |done].
  cbn beta. intros htmlFilePath s3 Hs3.
  apply wp_bind, wp_gets. apply wp_bind, wp_lift_opt.
  destruct (rewriteHtml _ _ html) as [html'|]; [|by apply HE1].
  apply wp_bind. eapply wp_mono; [by apply (keeps_mkdirSync P1)| |done].
  cbn beta. intros _ s4 Hs4.
  apply wp_bind. eapply wp_mono; [by apply (keeps_writeFileSync P1)| |done].
  cbn beta. intros _ s5 Hs5.
  apply wp_bind, wp_gets.
  apply wp_bind. eapply wp_mono;
    [apply (keeps_for_each P1); [intros; by apply keeps_scan_css | done] | |done].
  cbn beta. intros _ s6 [Hv6 Hq6].
  apply wp_bind, wp_modify.
  assert (J (set_visited (λ v0, v0 ∪ {[nurl]}) s6)) as Hs7.
  { split; [cbn; by rewrite Hv6|]. exists []. cbn. by rewrite app_nil_r. }
  revert Hs7. generalize (set_visited (λ v0, v0 ∪ {[nurl]}) s6). intros s7 Hs7.
  apply wp_bind, wp_lift_opt.
  destruct (eval_anchors (browse nurl)) as [anchors|]; [|by apply HEJ].
  eapply wp_mono; [apply (wp_for_each _ _ J (λ _, False)); [done|]|done|done].
  intros a s8 _ [Hv8 Hq8]. by apply wp_enqueue_anchor.
Qed.

(** One round of the loop, seen from the frontier: the head of the queue
    is dropped without a visit, or it is visited and becomes the one new
    member of the visited set. *)
Lemma loop_body_spec s url rest :
  toVisit s = url :: rest →
  ∃ s', loop_body s = (Normal tt, s')
    ∧ ((match normalize url with
        | Some nurl => nurl = [] ∨ nurl ∈ visited s
        | None => True
        end ∧ s' = set_toVisit (λ _, rest) s)
       ∨ (∃ nurl, normalize url = Some nurl ∧ nurl ≠ [] ∧ (nurl ∉ visited s)
            ∧ visited s' = visited s ∪ {[nurl]}
            ∧ ∃ new, toVisit s' = rest ++ new
                     ∧ Forall (λ x, x ∉ visited s ∪ {[nurl]}) new)).
Proof.
  intros Hq. unfold loop_body. rewrite Hq.
  destruct (normalize url) as [nurl|].
  2:{ eexists. split; [done|]. by left. }
  destruct (truthy nurl) eqn:Htruthy.
  2:{ apply truthy_false in Htruthy. eexists. split; [done|]. left. split; [by left|done]. }
  apply truthy_true in Htruthy. cbn [negb orb]. cbn [visited set_toVisit].
  case_bool_decide as Hvis.
  { eexists. split; [done|]. left. split; [by right|done]. }
  pose proof (wp_visit nurl (set_toVisit (λ _, rest) s)) as Hwp. unfold wp in Hwp.
  destruct (try_catch _ _ _) as [[[]|] s']; [|done].
  destruct Hwp as [Hv Hnew]. eexists. split; [done|]. right. exists nurl. done.
Qed.

Lemma loop_body_normal s : (loop_body s).1 = Normal tt.
Proof.
  destruct (toVisit s) as [|url rest] eqn:Hq.
  - unfold loop_body. by rewrite Hq.
  - by destruct (loop_body_spec s url rest Hq) as (s' & -> & _).
Qed.

(** C8: a round of the main loop never throws; the URL popped from the
    queue, once normalized, is in the visited set after the round
    whatever happened during the visit, and is not put back on the queue;
    when navigation fails, marking it visited is all that happens. *)
Theorem loop_body_marks_visited :
  (∀ s, (loop_body s).1 = Normal tt)
  ∧ (∀ s url rest nurl,
       toVisit s = url :: rest → normalize url = Some nurl → nurl ≠ [] →
       nurl ∈ visited (loop_body s).2
       ∧ (∃ new, toVisit (loop_body s).2 = rest ++ new ∧ nurl ∉ new)
       ∧ (goto (browse nurl) = None → nurl ∉ visited s →
          (loop_body s).2
          = set_visited (λ v, v ∪ {[nurl]}) (set_toVisit (λ _, rest) s))).
Proof.
  split; [apply loop_body_normal|]. intros s url rest nurl Hq Hnorm Hne.
  split; [|split].
  - destruct (loop_body_spec s url rest Hq) as (s' & -> & Hs'). cbn.
    rewrite Hnorm in Hs'. destruct Hs' as [[[?|Hin] ->] | (n & [= <-] & _ & _ & -> & _)].
    + done.
    + done.
    + apply elem_of_union_r. by apply elem_of_singleton.
  - destruct (loop_body_spec s url rest Hq) as (s' & -> & Hs'). cbn.
    rewrite Hnorm in Hs'. destruct Hs' as [[_ ->] | (n & [= <-] & _ & _ & _ & new & -> & Hnew)].
    + exists []. cbn. split; [by rewrite app_nil_r | apply not_elem_of_nil].
    + exists new. split; [done|]. intros Hin. rewrite Forall_forall in Hnew.
      apply (Hnew _ Hin). apply elem_of_union_r. by apply elem_of_singleton.
  - intros Hgoto Hvis. unfold loop_body. rewrite Hq, Hnorm.
    apply truthy_true in Hne. rewrite Hne. cbn [negb orb visited set_toVisit].
    rewrite bool_decide_eq_false_2 by done.
    unfold visit_page. rewrite Hgoto. reflexivity.
Qed.

(** The visited set never outgrows the page cap. *)
Lemma rounds_within_cap n s :
  size (visited s) ≤ MAX_PAGES → size (visited (rounds n s)) ≤ MAX_PAGES.
Proof.
  revert s. induction n as [|n IH]; intros s Hs; [done|]. cbn [rounds].
  destruct (loop_cond s) eqn:Hcond; [|done]. apply IH.
  unfold loop_cond in Hcond. apply andb_true_iff in Hcond as [Hq Hlt].
  apply bool_decide_eq_true_1 in Hlt.
  destruct (toVisit s) as [|url rest] eqn:Htv; [done|].
  destruct (loop_body_spec s url rest Htv) as (s' & -> & Hs'). cbn.
  destruct Hs' as [[_ ->] | (nurl & _ & _ & Hfresh & -> & _)]; [done|].
  rewrite size_union by (apply disjoint_singleton_r; done).
  rewrite size_singleton. lia.
Qed.

(** The loop stops: after some number of rounds its condition is false. *)
Lemma crawl_stops (budget : nat) :
  ∀ s, MAX_PAGES - size (visited s) ≤ budget →
    ∃ n, crawl n s = Some (rounds n s) ∧ loop_cond (rounds n s) = false
         ∧ ∀ k, k < n → loop_cond (rounds k s) = true.
Proof.
  induction budget as [|budget IHb].
  - intros s Hs. exists 0. cbn. assert (loop_cond s = false) as Hc.
    { unfold loop_cond. rewrite (bool_decide_eq_false_2 (size _ < _)) by lia.
      apply andb_false_r. }
    rewrite Hc. repeat split. intros k Hk. lia.
  - intros s. remember (length (toVisit s)) as len eqn:Hlen. revert s Hlen.
    induction len as [len IHl] using lt_wf_ind. intros s Hlen Hs.
    destruct (loop_cond s) eqn:Hcond.
    2:{ exists 0. cbn. rewrite Hcond. repeat split. intros k Hk. lia. }
    assert (∃ n, crawl n (loop_body s).2 = Some (rounds n (loop_body s).2)
                 ∧ loop_cond (rounds n (loop_body s).2) = false
                 ∧ ∀ k, k < n → loop_cond (rounds k (loop_body s).2) = true)
      as (n & Hcrawl & Hstop & Hrun).
    { pose proof Hcond as Hcond'. unfold loop_cond in Hcond'.
      apply andb_true_iff in Hcond' as [Hq Hlt].
      apply bool_decide_eq_true_1 in Hlt.
      destruct (toVisit s) as [|url rest] eqn:Htv; [done|].
      destruct (loop_body_spec s url rest Htv) as (s' & -> & Hs'). cbn.
      destruct Hs' as [[_ ->] | (nurl & _ & _ & Hfresh & Hv & _)].
      - eapply (IHl (length rest)); [|done|done]. rewrite Hlen. cbn. lia.
      - apply IHb. rewrite Hv.
        rewrite size_union by (apply disjoint_singleton_r; done).
        rewrite size_singleton. lia. }
    exists (S n). cbn [crawl rounds]. rewrite Hcond. repeat split; [done|done|].
    intros [|k] Hk; [done|]. cbn [rounds]. rewrite Hcond. apply Hrun. lia.
Qed.

(** The crawl from any state within the cap: the cap is never exceeded,
    the loop stops at the first state whose queue is empty or whose
    visited set has reached the cap, and not before. *)
Lemma crawl_bounded s :
  size (visited s) ≤ MAX_PAGES →
  (∀ n, size (visited (rounds n s)) ≤ MAX_PAGES)
  ∧ ∃ n, crawl n s = Some (rounds n s)
         ∧ (∀ k, k < n → loop_cond (rounds k s) = true)
         ∧ (toVisit (rounds n s) = [] ∨ size (visited (rounds n s)) = MAX_PAGES).
Proof.
  intros Hs. split; [intros n; by apply rounds_within_cap|].
  destruct (crawl_stops (MAX_PAGES - size (visited s)) s (le_n _)) as (n & Hc & Hstop & Hrun).
  exists n. repeat split; [done|done|].
  pose proof (rounds_within_cap n s Hs) as Hcap.
  unfold loop_cond in Hstop. apply andb_false_iff in Hstop as [Hq|Hlt].
  - left. by destruct (toVisit (rounds n s)).
  - right. apply bool_decide_eq_false_1 in Hlt. lia.
Qed.

Lemma startup_visited fs0 s0 : startup fs0 = Some s0 → visited s0 = ∅.
Proof.
  unfold startup. destruct START_HOSTNAME; [|done].
  destruct (exists_in fs0 OUTPUT_DIR); [by intros [= <-]|].
  unfold mkdirSync. cbn. destruct (mkdir_throws fs0 OUTPUT_DIR); [done|].
  by intros [= <-].
Qed.

(** *** [data:] URLs *)

Lemma keeps_no_data_enqueue nurl a : keeps no_data (enqueue_anchor nurl a).
Proof.
  intros s Hs. unfold always_after, wp.
  destruct (enqueue_anchor_admission nurl a s) as (s' & -> & Hs').
  by destruct Hs' as [(norm & _ & ->) | [_ ->]].
Qed.

Lemma keeps_no_data_visit nurl : keeps no_data (visit_page nurl).
Proof.
  pose proof no_data_invariant as HP. unfold visit_page.
  apply keeps_bind; [apply keeps_lift_opt|]. intros _.
  apply keeps_bind; [apply keeps_lift_opt|]. intros html.
  apply keeps_bind; [apply keeps_lift_opt|]. intros assets.
  apply keeps_bind; [apply keeps_modify, (inv_fresh _ HP)|]. intros _.
  apply keeps_bind; [apply keeps_for_each; intros; by apply keeps_download_asset|].
  intros _. apply keeps_bind; [by apply keeps_htmlFilePath_of|]. intros htmlFilePath.
  apply keeps_bind; [apply keeps_gets|]. intros entries.
  apply keeps_bind; [apply keeps_lift_opt|]. intros html'.
  apply keeps_bind; [by apply keeps_mkdirSync|]. intros _.
  apply keeps_bind; [by apply keeps_writeFileSync|]. intros _.
  apply keeps_bind; [apply keeps_gets|]. intros cssUrls.
  apply keeps_bind; [apply keeps_for_each; intros; by apply keeps_scan_css|].
  intros _. apply keeps_bind; [by apply keeps_modify|]. intros _.
  apply keeps_bind; [apply keeps_lift_opt|]. intros anchors.
  apply keeps_for_each. intros; apply keeps_no_data_enqueue.
Qed.

Lemma no_data_loop_body s : no_data s → no_data (loop_body s).2.
Proof.
  intros Hs. unfold loop_body. destruct (toVisit s) as [|url rest]; [done|].
  destruct (normalize url) as [nurl|]; [|done].
  destruct (negb (truthy nurl) || _); [done|].
  apply (keeps_snd no_data); [|done].
  apply keeps_try_catch; [apply keeps_no_data_visit | by apply keeps_modify].
Qed.

Lemma no_data_rounds n s : no_data s → no_data (rounds n s).
Proof.
  revert s. induction n as [|n IH]; intros s Hs; [done|]. cbn [rounds].
  destruct (loop_cond s); [|done]. by apply IH, no_data_loop_body.
Qed.

Lemma no_data_startup fs0 s0 : startup fs0 = Some s0 → no_data s0.
Proof.
  assert (∀ f, no_data {| fs := f; fetched := []; toVisit := [START_URL];
                          visited := ∅; assetsDownloaded := ∅; urlToLocal := [] |}) as H0.
  { intros f u _. repeat split; [apply not_elem_of_nil | apply not_elem_of_empty]. }
  unfold startup. destruct START_HOSTNAME; [|done].
  destruct (exists_in fs0 OUTPUT_DIR); [intros [= <-]; apply H0|].
  unfold mkdirSync. cbn. destruct (mkdir_throws fs0 OUTPUT_DIR); [done|].
  intros [= <-]. apply H0.
Qed.

(** C9: a URL that begins with [data:] is turned down by
    [downloadAndSave] without a request and without a write; as a page
    asset it leaves the state as it is; and throughout a crawl no such URL
    is ever requested, marked as downloaded, or entered in [urlToLocal]. *)
Theorem data_urls_rejected url :
  startsWith url "data:" = true →
  (∀ l s, downloadAndSave url l s = (Normal false, s))
  ∧ (∀ s, no_data s → download_asset url s = (Normal tt, s))
  ∧ (∀ fs0 s0 n, startup fs0 = Some s0 →
       (url ∉ fetched (rounds n s0))
       ∧ (url ∉ assetsDownloaded (rounds n s0))
       ∧ obj_get (urlToLocal (rounds n s0)) url = None).
Proof.
  intros Hdata. split; [|split].
  - intros l s. by apply downloadAndSave_data.
  - intros s Hs. unfold download_asset. unfold_monad.
    destruct (URL_new url); [|done]. destruct (urlToLocalPath url) as [l|]; [|done].
    destruct (Hs url Hdata) as (_ & Hnot & _).
    rewrite bool_decide_eq_false_2 by done. by rewrite downloadAndSave_data.
  - intros fs0 s0 n Hstart. by apply (no_data_rounds n s0 (no_data_startup _ _ Hstart)).
Qed.

End Frontier.

(** C3: in every crawl run the visited set never has more than
    [MAX_PAGES] members; the main loop stops, and it stops at the first
    state where the queue is empty or the visited set has [MAX_PAGES]
    members, the loop condition holding in every round before; on a site
    whose pages always link to a new page, with a cap of 5, the crawl
    stops with exactly 5 pages visited and the next one still pending. *)
Theorem crawl_page_cap :
  (∀ (url_api : UrlApi) (host : Host) (config : Config) fs0 s0,
     startup fs0 = Some s0 →
     (∀ n, size (visited (rounds n s0)) ≤ MAX_PAGES)
     ∧ ∃ n, crawl n s0 = Some (rounds n s0)
            ∧ (∀ k, k < n → loop_cond (rounds k s0) = true)
            ∧ (toVisit (rounds n s0) = [] ∨ size (visited (rounds n s0)) = MAX_PAGES))
  ∧ (∃ s0 s',
       @startup RefUrl.api Chain.host Scenario.config RefHost.empty_fs = Some s0
       ∧ @crawl RefUrl.api Chain.host Scenario.config 5 s0 = Some s'
       ∧ size (visited s') = 5
       ∧ toVisit s' = [lit "https://example.test/app/x/x/x/x/x/"]).
Proof.
  split.
  - intros url_api host config fs0 s0 Hstart. apply crawl_bounded.
    rewrite (startup_visited fs0 s0 Hstart). rewrite size_empty. lia.
  - apply (final_state_witness2 _ (crawl 5)). vm_compute. done.
Qed.

(** ** The path mapper and the download step on concrete inputs *)

Section Examples.
#[local] Existing Instance RefUrl.api.
#[local] Existing Instance Scenario.config.
#[local] Existing Instance Scenario.offline.

Lemma urlToLocalPath_query_distinct_witness :
  ∃ l1 l2, urlToLocalPath "https://example.test/app/a?x=1" = Some l1
         ∧ urlToLocalPath "https://example.test/app/a?x=2" = Some l2 ∧ l1 ≠ l2.
Proof.
  eapply (urlToLocalPath_query_distinct
            (lit "https://example.test/app/a?x=1") (lit "https://example.test/app/a?x=2")).
  - reflexivity.
  - reflexivity.
  - reflexivity.
  - vm_compute. discriminate.
  - reflexivity.
  - reflexivity.
Defined.


Lemma downloadAndSave_idempotent_witness :
  downloadAndSave "https://example.test/app/a.png" "/out/app/a.png"
    (Scenario.state_of (Scenario.one_file "/out/app/a.png" "PNG"))
  = (Normal true, Scenario.state_of (Scenario.one_file "/out/app/a.png" "PNG")).
Proof.
  apply (downloadAndSave_idempotent (lit "https://example.test/app/a.png")
           (lit "/out/app/a.png")); [done | done | reflexivity | reflexivity].
Defined.

(** C6 as stated fails on a [data:] URL: a file exists at its computed
    local path, and the call reports failure. *)
Lemma downloadAndSave_data_refuses_existing :
  urlToLocalPath "data:,x" = Some (lit "/out/,x")
  ∧ exists_in (Scenario.one_file "/out/,x" "old") "/out/,x" = true
  ∧ (downloadAndSave "data:,x" "/out/,x"
       (Scenario.state_of (Scenario.one_file "/out/,x" "old"))).1 = Normal false.
Proof. repeat split; vm_compute; reflexivity. Qed.

Lemma data_urls_rejected_witness :
  downloadAndSave "data:,x" "/out/,x" (Scenario.state_of RefHost.empty_fs)
  = (Normal false, Scenario.state_of RefHost.empty_fs).
Proof.
  destruct (data_urls_rejected (lit "data:,x")) as [H _]; [reflexivity|].
  apply H.
Defined.

(** With nothing to browse, the start page fails to load and is marked
    visited. *)
Lemma loop_body_marks_visited_witness :
  lit "https://example.test/app/"
  ∈ visited (loop_body (set_toVisit (λ _, [lit "https://example.test/app/"])
                          (Scenario.state_of RefHost.empty_fs))).2.
Proof.
  destruct loop_body_marks_visited as [_ H].
  destruct (H (set_toVisit (λ _, [lit "https://example.test/app/"])
                 (Scenario.state_of RefHost.empty_fs))
              (lit "https://example.test/app/") []
              (lit "https://example.test/app/")) as [Hv _];
    [reflexivity | reflexivity | discriminate | exact Hv].
Defined.

Lemma crawl_page_cap_witness :
  ∃ s0, @startup RefUrl.api Chain.host Scenario.config RefHost.empty_fs = Some s0
      ∧ size (visited (@rounds RefUrl.api Chain.host Scenario.config 7 s0)) ≤ 5.
Proof.
  eexists. split; [reflexivity|].
  destruct crawl_page_cap as [H _].
  destruct (H RefUrl.api Chain.host Scenario.config RefHost.empty_fs _ eq_refl) as [Hn _].
  apply (Hn 7).
Defined.

End Examples.

(** ** Reference rewriter *)

Section FieldFacts.
Context (D : ascii → bool).
Implicit Types x y t text pat rel : str.

Lemma plain_cons c x : plain D (c :: x) = true ↔ D c = false ∧ plain D x = true.
Proof. unfold plain. cbn. rewrite andb_true_iff, negb_true_iff. done. Qed.

Lemma plain_app x y : plain D (x ++ y) = true ↔ plain D x = true ∧ plain D y = true.
Proof. unfold plain. rewrite forallb_app, andb_true_iff. done. Qed.

(** A pattern without delimiter cannot begin at or across a delimiter. *)
Lemma startsWith_app_delim x c t pat :
  D c = true → plain D pat = true → pat ≠ [] →
  startsWith (x ++ c :: t) pat = startsWith x pat.
Proof.
  intros Hc. revert x. induction pat as [|p pat IH]; intros x Hpat Hne; [done|].
  apply plain_cons in Hpat as [Hp Hpat]. destruct x as [|d x]; cbn.
  - rewrite bool_decide_eq_false_2; [done|]. intros ->. congruence.
  - destruct pat as [|p' pat']; [done|]. by rewrite IH.
Qed.

Lemma includes_app_delim x c t pat :
  D c = true → plain D pat = true → pat ≠ [] →
  includes (x ++ c :: t) pat = includes x pat || includes t pat.
Proof.
  intros Hc Hpat Hne. induction x as [|d x IH].
  - pose proof (startsWith_app_delim [] c t pat Hc Hpat Hne) as H0.
    cbn [app] in *. cbn [includes]. rewrite H0. by destruct pat.
  - change ((d :: x) ++ c :: t) with (d :: (x ++ c :: t)). cbn [includes].
    change (d :: (x ++ c :: t)) with ((d :: x) ++ c :: t).
    rewrite startsWith_app_delim by done. rewrite IH. by rewrite orb_assoc.
Qed.

(** Replacement works on each side of a delimiter separately. *)
Lemma replace_app_delim x c t pat rel :
  D c = true → plain D pat = true → pat ≠ [] → "$"%char ∉ rel →
  replace_all (x ++ c :: t) pat rel = replace_all x pat rel ++ c :: replace_all t pat rel.
Proof.
  intros Hc Hpat Hne Hrel. induction x as [|r IH|d x Hd IH] using (scan_ind pat Hne).
  - pose proof (startsWith_app_delim [] c t pat Hc Hpat Hne) as H0.
    rewrite replace_all_nil by done. cbn [app] in *. apply replace_all_pass; [done..|].
    rewrite H0. by destruct pat.
  - rewrite <- app_assoc. rewrite !replace_all_match by done. by rewrite IH, app_assoc.
  - change ((d :: x) ++ c :: t) with (d :: (x ++ c :: t)).
    rewrite (replace_all_pass pat rel d (x ++ c :: t)); [|done..|].
    + rewrite IH. by rewrite replace_all_pass.
    + change (d :: (x ++ c :: t)) with ((d :: x) ++ c :: t).
      by rewrite startsWith_app_delim.
Qed.

Lemma replace_all_plain x pat rel :
  pat ≠ [] → "$"%char ∉ rel → plain D x = true → plain D rel = true →
  plain D (replace_all x pat rel) = true.
Proof.
  intros Hne Hrel Hx Hr. induction x as [|r IH|d x Hd IH] using (scan_ind pat Hne).
  - by rewrite replace_all_nil.
  - rewrite replace_all_match by done. apply plain_app in Hx as [_ Hx].
    apply plain_app. auto.
  - rewrite replace_all_pass by done. apply plain_cons in Hx as [Hd' Hx].
    apply plain_cons. auto.
Qed.

(** *** Fields *)

Lemma fields_go_app cur x rest :
  plain D x = true → fields_go D cur (x ++ rest) = fields_go D (reverse x ++ cur) rest.
Proof.
  revert cur. induction x as [|c x IH]; intros cur Hx; [done|].
  apply plain_cons in Hx as [Hc Hx]. cbn [app fields_go]. rewrite Hc, IH by done.
  by rewrite reverse_cons, <- app_assoc.
Qed.

Lemma map_fields_go_app g cur x rest :
  plain D x = true →
  map_fields_go D g cur (x ++ rest) = map_fields_go D g (reverse x ++ cur) rest.
Proof.
  revert cur. induction x as [|c x IH]; intros cur Hx; [done|].
  apply plain_cons in Hx as [Hc Hx]. cbn [app map_fields_go]. rewrite Hc, IH by done.
  by rewrite reverse_cons, <- app_assoc.
Qed.

Lemma fields_plain_text x : plain D x = true → fields D x = [x].
Proof.
  intros Hx. unfold fields. rewrite <- (app_nil_r x) at 1. rewrite fields_go_app by done.
  cbn. by rewrite app_nil_r, reverse_involutive.
Qed.

Lemma fields_delim x c t :
  plain D x = true → D c = true → fields D (x ++ c :: t) = x :: fields D t.
Proof.
  intros Hx Hc. unfold fields. rewrite fields_go_app by done. cbn. rewrite Hc.
  by rewrite app_nil_r, reverse_involutive.
Qed.

Lemma map_fields_plain_text g x : plain D x = true → map_fields D g x = g x.
Proof.
  intros Hx. unfold map_fields. rewrite <- (app_nil_r x) at 1.
  rewrite map_fields_go_app by done. cbn. by rewrite app_nil_r, reverse_involutive.
Qed.

Lemma map_fields_delim g x c t :
  plain D x = true → D c = true →
  map_fields D g (x ++ c :: t) = g x ++ c :: map_fields D g t.
Proof.
  intros Hx Hc. unfold map_fields. rewrite map_fields_go_app by done. cbn. rewrite Hc.
  by rewrite app_nil_r, reverse_involutive.
Qed.

(** Induction over a text, field by field. *)
Lemma fields_ind (P : str → Prop) :
  (∀ x, plain D x = true → P x) →
  (∀ x c t, plain D x = true → D c = true → P t → P (x ++ c :: t)) →
  ∀ text, P text.
Proof.
  intros Hbase Hstep text.
  assert (∀ x, plain D x = true → P (x ++ text)) as Hgen.
  { induction text as [|c t IH]; intros x Hx.
    - rewrite app_nil_r. by apply Hbase.
    - destruct (D c) eqn:Hc.
      + apply Hstep; [done..|]. by apply (IH []).
      + rewrite (cons_middle c x t), app_assoc. apply IH.
        apply plain_app. split; [done|]. apply plain_cons. done. }
  by apply (Hgen []).
Qed.

Lemma fields_are_plain text : Forall (λ x, plain D x = true) (fields D text).
Proof.
  induction text as [x Hx|x c t Hx Hc IH] using fields_ind.
  - rewrite fields_plain_text by done. by apply Forall_singleton.
  - rewrite fields_delim by done. by apply Forall_cons.
Qed.

(** Replacing a pattern without delimiter is replacing it in every field. *)
Lemma replace_all_fields text pat rel :
  plain D pat = true → pat ≠ [] → "$"%char ∉ rel →
  replace_all text pat rel = map_fields D (λ x, replace_all x pat rel) text.
Proof.
  intros Hpat Hne Hrel. induction text as [x Hx|x c t Hx Hc IH] using fields_ind.
  - by rewrite map_fields_plain_text.
  - rewrite replace_app_delim, map_fields_delim by done. by rewrite IH.
Qed.

Lemma map_fields_compose g1 g2 text :
  Forall (λ x, plain D (g1 x) = true) (fields D text) →
  map_fields D g2 (map_fields D g1 text) = map_fields D (λ x, g2 (g1 x)) text.
Proof.
  induction text as [x Hx|x c t Hx Hc IH] using fields_ind.
  - rewrite fields_plain_text by done. intros Hg. rewrite Forall_singleton in Hg.
    rewrite (map_fields_plain_text g1 x) by done.
    by rewrite !map_fields_plain_text.
  - rewrite fields_delim by done. intros Hg. apply Forall_cons in Hg as [Hg Hrest].
    rewrite !(map_fields_delim _ x) by done. rewrite map_fields_delim by done.
    by rewrite IH.
Qed.

Lemma map_fields_ext g1 g2 text :
  Forall (λ x, g1 x = g2 x) (fields D text) →
  map_fields D g1 text = map_fields D g2 text.
Proof.
  induction text as [x Hx|x c t Hx Hc IH] using fields_ind.
  - rewrite fields_plain_text by done. intros Hg. rewrite Forall_singleton in Hg.
    by rewrite !map_fields_plain_text.
  - rewrite fields_delim by done. intros Hg. apply Forall_cons in Hg as [Hg Hrest].
    rewrite !map_fields_delim by done. by rewrite Hg, IH.
Qed.

(** A pattern without delimiter that occurs in the result occurs in the
    image of one field. *)
Lemma includes_map_fields g text pat :
  plain D pat = true → pat ≠ [] →
  includes (map_fields D g text) pat = true →
  Exists (λ x, includes (g x) pat = true) (fields D text).
Proof.
  intros Hpat Hne. induction text as [x Hx|x c t Hx Hc IH] using fields_ind.
  - rewrite fields_plain_text, map_fields_plain_text by done. intros Hin.
    by apply Exists_cons_hd.
  - rewrite fields_delim, map_fields_delim by done.
    rewrite includes_app_delim by done. intros [Hin|Hin]%orb_true_iff.
    + by apply Exists_cons_hd.
    + by apply Exists_cons_tl, IH.
Qed.

Lemma map_fields_id_aux text : map_fields D (λ x, x) text = text.
Proof.
  induction text as [x Hx|x c t Hx Hc IH] using fields_ind.
  - by rewrite map_fields_plain_text.
  - rewrite map_fields_delim by done. by rewrite IH.
Qed.

End FieldFacts.

Section Rewriter.
Context {url_api : UrlApi} {host : Host} {config : Config}.
Context (D : ascii → bool) (html : str) (all : list (str * str)).
Implicit Types x text : str.
Implicit Types e : str * str.
Implicit Types es : list (str * str).

Lemma forallb_Forall {A} (f : A → bool) (l : list A) :
  forallb f l = true ↔ Forall (λ a, f a = true) l.
Proof.
  induction l as [|a l IH]; cbn.
  - split; [by constructor | done].
  - rewrite andb_true_iff, IH, Forall_cons. done.
Qed.

Lemma includes_false_not s pat : includes s pat ≠ true → includes s pat = false.
Proof. by destruct (includes s pat). Qed.

Lemma rewrite_entry_substitute text e :
  is_Some (originLess e.1) → rewrite_entry html text e = Some (substitute html e text).
Proof.
  intros [ol Hol]. unfold rewrite_entry, substitute. rewrite Hol.
  unfold originLess in Hol. destruct (URL_new e.1) as [u|]; [|done].
  by injection Hol as <-.
Qed.

Lemma originLess_not_nil url ol : originLess url = Some ol → ol ≠ [].
Proof.
  unfold originLess. destruct (URL_new url); [|done]. by intros [= <-].
Qed.

(** What [entry_ok] says, unfolded. *)
Lemma entry_ok_inv e :
  entry_ok D html all e = true →
  ∃ ol, originLess e.1 = Some ol ∧ ol ≠ [] ∧ e.1 ≠ []
    ∧ plain D e.1 = true ∧ plain D ol = true
    ∧ plain D (makeRelativeForHtml html e.2) = true
    ∧ ("$"%char ∉ makeRelativeForHtml html e.2)
    ∧ Forall (λ e', includes (makeRelativeForHtml html e.2) e'.1 = false
                    ∧ e'.1 ≠ ol
                    ∧ ∃ ol', originLess e'.1 = Some ol'
                             ∧ includes (makeRelativeForHtml html e.2) ol' = false) all.
Proof.
  unfold entry_ok. destruct (originLess e.1) as [ol|] eqn:Hol; [|done].
  cbn zeta. rewrite !andb_true_iff. intros [[[[[H1 H2] H3] H4] H5] H6].
  exists ol. split; [done|]. split; [by eapply originLess_not_nil|].
  split; [by apply truthy_true|]. do 3 (split; [done|]). split.
  - unfold no_dollar in H5. apply negb_true_iff, bool_decide_eq_false_1 in H5. done.
  - apply forallb_Forall in H6. eapply Forall_impl; [exact H6|].
    intros e'. cbn beta. rewrite !andb_true_iff, !negb_true_iff.
    intros [[Ha Hb] Hc]. split; [done|]. split; [by apply bool_decide_eq_false_1 in Hb|].
    destruct (originLess e'.1) as [ol'|]; [|done]. exists ol'.
    by apply negb_true_iff in Hc.
Qed.

(** What [field_ok] says, unfolded. *)
Lemma field_ok_inv x :
  field_ok all x = true →
  Forall (λ e, ∃ ol, originLess e.1 = Some ol
                ∧ (includes x e.1 = true → x = e.1)
                ∧ (includes x ol = true → x = ol ∨ x = e.1)) all.
Proof.
  unfold field_ok. intros Hf%forallb_Forall. eapply Forall_impl; [exact Hf|].
  intros e. cbn beta. destruct (originLess e.1) as [ol|]; [|done].
  rewrite andb_true_iff. intros [Ha Hb]. exists ol. split; [done|]. split.
  - intros Hin. rewrite Hin in Ha. by apply bool_decide_eq_true_1 in Ha.
  - intros Hin. rewrite Hin in Hb. cbn in Hb. apply orb_true_iff in Hb as [Hb|Hb].
    + left. by apply bool_decide_eq_true_1 in Hb.
    + right. by apply bool_decide_eq_true_1 in Hb.
Qed.

Hypothesis all_ok : Forall (λ e, entry_ok D html all e = true) all.

Lemma entry_ok_of e : e ∈ all → entry_ok D html all e = true.
Proof. intros He. rewrite Forall_forall in all_ok. by apply all_ok. Qed.

(** One round keeps fields free of delimiters. *)
Lemma substitute_plain e x :
  e ∈ all → plain D x = true → plain D (substitute html e x) = true.
Proof.
  intros He Hx. destruct (entry_ok_inv e (entry_ok_of e He))
    as (ol & Hol & Hne & Hk & Hpk & Hpo & Hpr & Hd & _).
  unfold substitute. rewrite Hol. cbn zeta.
  apply replace_all_plain; [done..| |done]. by apply replace_all_plain.
Qed.

(** One round works field by field. *)
Lemma rewrite_entry_fields e text :
  e ∈ all → rewrite_entry html text e = Some (map_fields D (substitute html e) text).
Proof.
  intros He. destruct (entry_ok_inv e (entry_ok_of e He))
    as (ol & Hol & Hne & Hk & Hpk & Hpo & Hpr & Hd & _).
  rewrite rewrite_entry_substitute by by eexists. f_equal.
  unfold substitute. rewrite Hol. cbn zeta.
  rewrite (replace_all_fields D _ ol) by done.
  rewrite (replace_all_fields D text e.1) by done.
  apply map_fields_compose. eapply Forall_impl; [apply fields_are_plain|].
  intros x Hx. cbn beta. by apply replace_all_plain.
Qed.

Lemma foldl_substitute_plain es x :
  es ⊆ all → plain D x = true →
  plain D (foldl (λ y e, substitute html e y) x es) = true.
Proof.
  revert x. induction es as [|e es IH]; intros x Hsub Hx; [done|]. cbn [foldl].
  apply IH; [set_solver|]. apply substitute_plain; [|done]. apply Hsub. left.
Qed.

(** The whole loop works field by field. *)
Lemma rewriteHtml_fields es text :
  es ⊆ all →
  rewriteHtml html es text
  = Some (map_fields D (λ x, foldl (λ y e, substitute html e y) x es) text).
Proof.
  revert text. induction es as [|e es IH]; intros text Hsub.
  - cbn. f_equal. symmetry. etrans; [|apply (map_fields_id_aux D text)].
    by apply map_fields_ext, Forall_true.
  - cbn [rewriteHtml foldl]. rewrite rewrite_entry_fields by (apply Hsub; left).
    rewrite IH by set_solver. f_equal.
    apply map_fields_compose. eapply Forall_impl; [apply fields_are_plain|].
    intros x Hx. cbn beta. apply substitute_plain; [apply Hsub; left|done].
Qed.

(** A relative path is left alone by every round. *)
Lemma substitute_rel_fixed e e' :
  e ∈ all → e' ∈ all →
  substitute html e' (makeRelativeForHtml html e.2) = makeRelativeForHtml html e.2.
Proof.
  intros He He'.
  destruct (entry_ok_inv e (entry_ok_of e He)) as (? & _ & _ & _ & _ & _ & _ & _ & Hall).
  destruct (entry_ok_inv e' (entry_ok_of e' He'))
    as (ol' & Hol' & Hne' & Hk' & _ & _ & _ & Hd' & _).
  rewrite Forall_forall in Hall. destruct (Hall e' He') as (Hk & _ & ol & Hol & Ho).
  rewrite Hol' in Hol. injection Hol as <-.
  unfold substitute. rewrite Hol'. cbn zeta.
  rewrite (replace_all_absent _ e'.1) by done. by rewrite replace_all_absent.
Qed.

Lemma foldl_substitute_rel_fixed e es :
  e ∈ all → es ⊆ all →
  foldl (λ y e', substitute html e' y) (makeRelativeForHtml html e.2) es
  = makeRelativeForHtml html e.2.
Proof.
  intros He. induction es as [|e' es IH]; intros Hsub; [done|]. cbn [foldl].
  rewrite substitute_rel_fixed; [|done|apply Hsub; left]. apply IH. set_solver.
Qed.

(** On a field that meets [field_ok] the loop does what [rewrite_field]
    says. *)
Lemma foldl_substitute_field x es :
  field_ok all x = true → es ⊆ all →
  foldl (λ y e, substitute html e y) x es = rewrite_field html es x.
Proof.
  intros Hx%field_ok_inv. rewrite Forall_forall in Hx.
  induction es as [|e es IH]; intros Hsub; [done|].
  assert (e ∈ all) as He by (apply Hsub; left).
  assert (es ⊆ all) as Hsub' by set_solver.
  destruct (Hx e He) as (ol & Hol & Hk & Ho).
  destruct (entry_ok_inv e (entry_ok_of e He))
    as (ol0 & Hol0 & Hne & Hkne & _ & _ & _ & Hd & Hall).
  rewrite Hol in Hol0. injection Hol0 as <-.
  rewrite Forall_forall in Hall. destruct (Hall e He) as (_ & _ & ol1 & Hol1 & Hrel).
  rewrite Hol in Hol1. injection Hol1 as <-.
  cbn [foldl rewrite_field]. unfold substitute at 2. rewrite Hol. cbn zeta.
  destruct (decide (x = e.1)) as [->|Hxk].
  - rewrite bool_decide_eq_true_2 by done. cbn [orb].
    rewrite replace_all_self by done. rewrite replace_all_absent by done.
    by apply foldl_substitute_rel_fixed.
  - assert (includes x e.1 = false) as Hnk.
    { apply includes_false_not. intros Hin. by apply Hxk, Hk. }
    rewrite (replace_all_absent x e.1) by done.
    rewrite (bool_decide_eq_false_2 (x = e.1)) by done. cbn [orb].
    destruct (decide (x = ol)) as [->|Hxo].
    + rewrite bool_decide_eq_true_2 by done.
      rewrite replace_all_self by done. by apply foldl_substitute_rel_fixed.
    + assert (includes x ol = false) as Hno.
      { apply includes_false_not. intros Hin. by destruct (Ho Hin). }
      rewrite replace_all_absent by done.
      rewrite bool_decide_eq_false_2 by congruence. by apply IH.
Qed.

(** A field is left as it is, being no mapped URL and no
    protocol-relative form, or becomes the relative path of an entry. *)
Lemma rewrite_field_cases x es :
  (rewrite_field html es x = x ∧ Forall (λ e, x ≠ e.1) es)
  ∨ Exists (λ e, rewrite_field html es x = makeRelativeForHtml html e.2) es.
Proof.
  induction es as [|e es IH]; [by left|]. cbn [rewrite_field].
  destruct (bool_decide (x = e.1) || bool_decide (originLess e.1 = Some x)) eqn:Htest.
  - right. by apply Exists_cons_hd.
  - apply orb_false_iff in Htest as [Hk%bool_decide_eq_false_1 _].
    destruct IH as [[Hx Hes]|Hex].
    + left. split; [done|]. by apply Forall_cons.
    + right. by apply Exists_cons_tl.
Qed.

(** A mapped URL, as a field, gets the relative path of its own entry. *)
Lemma rewrite_field_own e es :
  NoDup (fst <$> es) → es ⊆ all → e ∈ es →
  rewrite_field html es e.1 = makeRelativeForHtml html e.2.
Proof.
  induction es as [|e0 es IH]; intros Hnd Hsub He; [by apply elem_of_nil in He|].
  cbn [fmap list_fmap] in Hnd. apply NoDup_cons in Hnd as [Hfresh Hnd].
  cbn [rewrite_field]. apply elem_of_cons in He as [->|He].
  - by rewrite bool_decide_eq_true_2.
  - assert (e.1 ≠ e0.1) as Hne.
    { intros Heq. apply Hfresh. rewrite <- Heq. by apply list_elem_of_fmap_2. }
    rewrite bool_decide_eq_false_2 by done. cbn [orb].
    assert (e0 ∈ all) as He0 by (apply Hsub; left).
    assert (e ∈ all) as He' by (apply Hsub; by right).
    destruct (entry_ok_inv e0 (entry_ok_of e0 He0)) as (ol & Hol & _ & _ & _ & _ & _ & _ & Hall).
    rewrite Forall_forall in Hall. destruct (Hall e He') as (_ & Hnol & _).
    rewrite bool_decide_eq_false_2 by (rewrite Hol; congruence).
    apply IH; [done| |done]. intros y Hy. apply Hsub. by right.
Qed.

End Rewriter.

Section RewriterTheorem.
Context {url_api : UrlApi} {host : Host} {config : Config}.

Lemma makeRelativeForHtml_resolves htmlFilePath assetLocalPath :
  Path.resolve cwd (Path.dirname htmlFilePath ++ Path.sep
                    ++ makeRelativeForHtml htmlFilePath assetLocalPath)
  = Path.resolve cwd assetLocalPath.
Proof.
  unfold makeRelativeForHtml. change (lit "/") with Path.sep.
  rewrite join_split by done. apply relative_resolves, dirname_not_nil.
Qed.

(** C1, as amended: on a text in which mapped URLs and their
    protocol-relative forms occur only as whole fields (the runs between
    delimiter characters, none of which occurs in a mapped URL, a
    protocol-relative form or a relative path), with a map whose relative
    paths contain no [$] and no mapped URL or protocol-relative form, the
    rewriter turns every field that is a mapped URL into the relative path
    of that URL and leaves the rest of the text as it is; no mapped URL
    occurs in the output; and each relative path, read from the directory
    of the HTML file, resolves to the local path of its URL. *)
Theorem rewriteHtml_separated (D : ascii → bool) htmlFilePath entries text :
  separated D htmlFilePath entries text = true →
  ∃ out, rewriteHtml htmlFilePath entries text = Some out
    ∧ out = map_fields D (rewrite_field htmlFilePath entries) text
    ∧ Forall (λ e, includes out e.1 = false
                   ∧ rewrite_field htmlFilePath entries e.1
                     = makeRelativeForHtml htmlFilePath e.2
                   ∧ Path.resolve cwd (Path.dirname htmlFilePath ++ Path.sep
                                       ++ makeRelativeForHtml htmlFilePath e.2)
                     = Path.resolve cwd e.2) entries.
Proof.
  unfold separated. rewrite !andb_true_iff. intros [[Hnd Hentries] Hfields].
  apply bool_decide_eq_true_1 in Hnd.
  apply forallb_Forall in Hentries, Hfields.
  assert (rewriteHtml htmlFilePath entries text
          = Some (map_fields D (rewrite_field htmlFilePath entries) text)) as Hout.
  { rewrite (rewriteHtml_fields D htmlFilePath entries Hentries) by done. f_equal.
    apply map_fields_ext. eapply Forall_impl; [exact Hfields|].
    intros x Hx. cbn beta. by apply (foldl_substitute_field D htmlFilePath entries). }
  eexists. split; [exact Hout|]. split; [done|].
  apply Forall_forall. intros e He. split; [|split].
  - apply includes_false_not. intros Hin.
    destruct (entry_ok_inv D htmlFilePath entries e) as (ol & _ & _ & Hk & Hpk & _).
    { rewrite Forall_forall in Hentries. by apply Hentries. }
    apply (includes_map_fields D) in Hin; [|done..].
    apply Exists_exists in Hin as (x & Hx & Hin).
    rewrite Forall_forall in Hfields. pose proof (Hfields x Hx) as Hfx.
    destruct (rewrite_field_cases htmlFilePath x entries) as [[Heq Hne]|Hex].
    + rewrite Heq in Hin. apply field_ok_inv in Hfx. rewrite Forall_forall in Hfx.
      destruct (Hfx e He) as (? & _ & Hxk & _). rewrite Forall_forall in Hne.
      by apply (Hne e He), Hxk.
    + apply Exists_exists in Hex as (e' & He' & Heq). rewrite Heq in Hin.
      destruct (entry_ok_inv D htmlFilePath entries e') as (? & _ & _ & _ & _ & _ & _ & _ & Hall).
      { rewrite Forall_forall in Hentries. by apply Hentries. }
      rewrite Forall_forall in Hall. destruct (Hall e He) as (Hno & _). congruence.
  - by apply (rewrite_field_own D htmlFilePath entries Hentries).
  - apply makeRelativeForHtml_resolves.
Qed.

End RewriterTheorem.

(** ** The rewriter on concrete inputs *)

Section RewriterExamples.
#[local] Existing Instance RefUrl.api.
#[local] Existing Instance Scenario.config.
#[local] Existing Instance Scenario.offline.

Lemma rewriteHtml_separated_witness :
  ∃ out, rewriteHtml Pages.html_path Pages.entries Pages.text = Some out
       ∧ out = lit "<img src='img/a.png'><link href='css/a.css'>".
Proof.
  destruct (rewriteHtml_separated Pages.is_delim Pages.html_path Pages.entries Pages.text)
    as (out & Hrun & Hout & _); [vm_compute; reflexivity|].
  exists out. split; [exact Hrun|]. rewrite Hout. vm_compute. reflexivity.
Defined.

(** C1 as stated fails in two ways.  When one mapped URL begins with
    another, the shorter one is replaced inside the longer one, and the
    reference to the longer one ends up pointing at no mapped file.  And a
    replacement of the protocol-relative form can put a mapped URL together
    that was not in the text before, so that it remains in the output. *)
Lemma rewriteHtml_overlapping_keys :
  Forall (λ e, urlToLocalPath e.1 = Some e.2) Pages.overlapping
  ∧ rewriteHtml Pages.html_path Pages.overlapping Pages.overlapping_text
    = Some (lit "<img src='a?x=1'>")
  ∧ makeRelativeForHtml Pages.html_path (lit "/out/app/a_3f783d31") = lit "a_3f783d31"
  ∧ includes (lit "<img src='a?x=1'>") (lit "a_3f783d31") = false
  ∧ Forall (λ e, urlToLocalPath e.1 = Some e.2) Pages.single
  ∧ rewriteHtml (lit "/out/index.html") Pages.single Pages.nesting_text
    = Some (lit "https://example.test/xx")
  ∧ includes (lit "https://example.test/xx") (lit "https://example.test/x") = true.
Proof. repeat split; repeat constructor; vm_compute; reflexivity. Qed.

End RewriterExamples.

(** ** Stylesheets on concrete inputs *)

Section StylesWithFont.
#[local] Existing Instance RefUrl.api.
#[local] Existing Instance Scenario.config.
#[local] Existing Instance Styles.with_font.


(** The whole crawl of that site: the saved stylesheet refers to the font
    by a relative path. *)
Lemma stylesheet_scenario :
  ∃ s, startup RefHost.empty_fs ≫= crawl 1 = Some s
    ∧ files (fs s) !! Styles.css_path = Some (lit "a{src:url(" ++ [double_quote]
                                              ++ lit "fonts/x.woff" ++ [double_quote] ++ lit ")}")
    ∧ files (fs s) !! Styles.font_path = Some (lit "WOFF").
Proof. run_crawl. done. Qed.

End StylesWithFont.

Section StylesWithoutFont.
#[local] Existing Instance RefUrl.api.
#[local] Existing Instance Scenario.config.
#[local] Existing Instance Styles.without_font.


End StylesWithoutFont.

Section StylesNested.
#[local] Existing Instance RefUrl.api.
#[local] Existing Instance Scenario.config.
#[local] Existing Instance Styles.nested.



End StylesNested.
